(** * KpopDuelBE: the match manager of [src/gameManager.ts]

    A shallow embedding of the [GameManager] class and of the records of
    [src/types.ts], followed by the properties of its match lifecycle,
    matchmaking queue, scoring and retention.

    Embedded: [addPlayerToQueue], [createMatch], [generateRounds],
    [startMatch], [getCurrentRound], [submitGuess], [isRoundTimeUp],
    [finishRound], [getGameResult], [removePlayer], [getMatch],
    [getPlayerMatch], [cleanupFinishedMatches] and [getStats].

    Conventions of the embedding.
    - JS [Map]s are finite maps with string keys.  The plain objects used
      as dictionaries ([scores], [playerAnswers]) are finite maps of their
      own properties; reading and writing them goes through [js_defined],
      [js_assign] and [js_add_assign], which account for the names inherited
      from [Object.prototype].
    - The class instance is an explicit state ([GameManager.t]) that every
      method takes and returns; a [Match] is stored in the table under its
      identifier and updated there, as the methods mutate it in place.
    - [Date.now()], [uuidv4()] and the random shuffle of [generateRounds]
      are inputs of the methods that call them.
    - Timestamps are integer milliseconds; the arithmetic of the scoring
      formula is exact (rationals), [Math.round] rounds half up.
    - A [TypeError] raised by reading a property of [undefined] is an explicit
      outcome. *)

From Stdlib Require Import QArith Qround Qminmax.
From stdpp Require Import gmap strings list fin_maps.

Local Open Scope Z_scope.

(** ** Data model ([types.ts]) *)

Module Player.
Record t := mk {
  id : string;
  name : string;
  socketId : string;
  photo : option string
}.
End Player.

Module Round.
Record t := mk {
  snippetURL : string;
  options : list string;
  correctAnswer : string
}.
End Round.

(** A value held in a score map: an integer, [NaN] (what
    [undefined + points] evaluates to), or a string, [Text] (what [+=] leaves
    when the value read is a function or an object inherited from
    [Object.prototype]: its text, which the engine chooses, followed by the
    digits of the points; such a text is not a numeral). *)
Inductive jsnum := Num (z : Z) | NaN | Text.

Inductive MatchState := waiting | playing | finished.

#[global] Instance MatchState_eq_dec : EqDecision MatchState.
Proof. solve_decision. Defined.

#[global] Instance jsnum_eq_dec : EqDecision jsnum.
Proof. solve_decision. Defined.

Module Match.
Record t := mk {
  id : string;
  player1Id : string;
  player2Id : string;
  currentRound : nat;
  rounds : list Round.t;
  scores : gmap string jsnum;
  state : MatchState;
  roundStartTime : option Z;
  playerAnswers : gmap string string;
  roundTimeLimit : Z
}.

Definition set_state (s : MatchState) (m : t) : t :=
  mk (id m) (player1Id m) (player2Id m) (currentRound m) (rounds m)
     (scores m) s (roundStartTime m) (playerAnswers m) (roundTimeLimit m).
Definition set_currentRound (n : nat) (m : t) : t :=
  mk (id m) (player1Id m) (player2Id m) n (rounds m)
     (scores m) (state m) (roundStartTime m) (playerAnswers m) (roundTimeLimit m).
Definition set_roundStartTime (o : option Z) (m : t) : t :=
  mk (id m) (player1Id m) (player2Id m) (currentRound m) (rounds m)
     (scores m) (state m) o (playerAnswers m) (roundTimeLimit m).
Definition set_scores (s : gmap string jsnum) (m : t) : t :=
  mk (id m) (player1Id m) (player2Id m) (currentRound m) (rounds m)
     s (state m) (roundStartTime m) (playerAnswers m) (roundTimeLimit m).
Definition set_playerAnswers (a : gmap string string) (m : t) : t :=
  mk (id m) (player1Id m) (player2Id m) (currentRound m) (rounds m)
     (scores m) (state m) (roundStartTime m) a (roundTimeLimit m).
End Match.

Module PlayerGuess.
Record t := mk {
  roundNumber : Z;
  guess : string;
  timestamp : Z
}.
End PlayerGuess.

Module RoundResult.
Record t := mk {
  correctAnswer : string;
  scores : gmap string jsnum;
  playerAnswers : gmap string string;
  roundNumber : nat
}.
End RoundResult.

(** ** The manager's state (the private fields of the class) *)

Module GameManager.
Record t := mk {
  matches : gmap string Match.t;
  waitingPlayers : list Player.t;
  playerMatches : gmap string string
}.
End GameManager.

Import GameManager.

(** [new GameManager()] *)
Definition init : GameManager.t := GameManager.mk ∅ [] ∅.

Definition songDatabase : list Round.t :=
  [ Round.mk "https://example.com/audio/dynamite.mp3"
      ["Dynamite"; "Butter"; "Permission to Dance"; "Life Goes On"] "Dynamite";
    Round.mk "https://example.com/audio/gangnam-style.mp3"
      ["Gangnam Style"; "Gentleman"; "Daddy"; "New Face"] "Gangnam Style";
    Round.mk "https://example.com/audio/how-you-like-that.mp3"
      ["How You Like That"; "Kill This Love"; "DDU-DU DDU-DU"; "Lovesick Girls"]
      "How You Like That";
    Round.mk "https://example.com/audio/next-level.mp3"
      ["Next Level"; "Savage"; "Black Mamba"; "My World"] "Next Level";
    Round.mk "https://example.com/audio/god-menu.mp3"
      ["God's Menu"; "Back Door"; "Thunderous"; "MANIAC"] "God's Menu";
    Round.mk "https://example.com/audio/fancy.mp3"
      ["Fancy"; "Feel Special"; "More & More"; "I Can't Stop Me"] "Fancy";
    Round.mk "https://example.com/audio/love-scenario.mp3"
      ["Love Scenario"; "Killing Me"; "Goodbye Road"; "Why Why Why"] "Love Scenario";
    Round.mk "https://example.com/audio/spring-day.mp3"
      ["Spring Day"; "Blood Sweat & Tears"; "Fire"; "Save ME"] "Spring Day" ].

(** What a method call leaves behind: the state and the returned value, or
    the state at the point where a [TypeError] was thrown. *)
Inductive completion (A : Type) :=
| Normal (st : GameManager.t) (v : A)
| TypeError (st : GameManager.t).
Arguments Normal {A} st v.
Arguments TypeError {A} st.

Definition state_of {A} (c : completion A) : GameManager.t :=
  match c with Normal st _ => st | TypeError st => st end.

Definition value_of {A} (c : completion A) : option A :=
  match c with Normal _ v => Some v | TypeError _ => None end.

(** ** Matchmaking *)

(** [generateRounds(count)]: [shuffled] is the copy of [songDatabase] as the
    randomly compared sort left it. *)
Definition generateRounds (count : nat) (shuffled : list Round.t) : list Round.t :=
  take (Nat.min count (length shuffled)) shuffled.

(** [createMatch()]: [uuid] is the value of [uuidv4()]. *)
Definition createMatch (uuid : string) (shuffled : list Round.t)
    (st : GameManager.t) : completion string :=
  match waitingPlayers st with
  | [] => TypeError (GameManager.mk (matches st) [] (playerMatches st))
  | [player1] => TypeError (GameManager.mk (matches st) [] (playerMatches st))
  | player1 :: player2 :: rest =>
      let matchId := uuid in
      let rounds := generateRounds 5 shuffled in
      let m := Match.mk matchId (Player.id player1) (Player.id player2) 0 rounds
                 (<[Player.id player2 := Num 0]> {[Player.id player1 := Num 0]})
                 waiting None ∅ 15 in
      Normal (GameManager.mk
                (<[matchId := m]> (matches st))
                rest
                (<[Player.id player2 := matchId]>
                   (<[Player.id player1 := matchId]> (playerMatches st))))
             matchId
  end.

(** [addPlayerToQueue(player)] *)
Definition addPlayerToQueue (player : Player.t) (uuid : string)
    (shuffled : list Round.t) (st : GameManager.t) : completion (option string) :=
  if bool_decide (is_Some (playerMatches st !! Player.id player)) then
    Normal st None
  else
    let w := filter (λ p, Player.id p ≠ Player.id player) (waitingPlayers st)
               ++ [player] in
    let st1 := GameManager.mk (matches st) w (playerMatches st) in
    if (2 <=? length w)%nat then
      match createMatch uuid shuffled st1 with
      | Normal st2 mid => Normal st2 (Some mid)
      | TypeError st2 => TypeError st2
      end
    else Normal st1 None.

(** ** Round lifecycle *)

(** [startMatch(matchId)]; [now] is the value of [Date.now()]. *)
Definition startMatch (matchId : string) (now : Z) (st : GameManager.t)
    : GameManager.t * option Match.t :=
  match matches st !! matchId with
  | None => (st, None)
  | Some m =>
      let m' := Match.set_roundStartTime (Some now)
                  (Match.set_currentRound 1%nat (Match.set_state playing m)) in
      (GameManager.mk (<[matchId := m']> (matches st)) (waitingPlayers st)
         (playerMatches st),
       Some m')
  end.

(** [match.rounds[match.currentRound - 1]]: [undefined] out of range. *)
Definition round_at (m : Match.t) : option Round.t :=
  match Match.currentRound m with
  | O => None
  | S k => Match.rounds m !! k
  end.

(** [getCurrentRound(matchId)] *)
Definition getCurrentRound (matchId : string) (st : GameManager.t) : option Round.t :=
  match matches st !! matchId with
  | None => None
  | Some m =>
      if bool_decide (Match.currentRound m = 0%nat)
         || bool_decide (length (Match.rounds m) < Match.currentRound m)%nat
      then None else round_at m
  end.

(** *** Scoring (the arithmetic inside [submitGuess]) *)

(** [Math.round]: the nearest integer, halves rounded up. *)
Definition Math_round (x : Q) : Z := Qfloor (x + (1 # 2)).

(** [(guess.timestamp - (match.roundStartTime || 0)) / 1000] *)
Definition timeElapsed (timestamp : Z) (roundStartTime : option Z) : Q :=
  (inject_Z (timestamp - default 0 roundStartTime)%Z / 1000)%Q.

(** [Math.max(0, match.roundTimeLimit - timeElapsed)] *)
Definition speedBonus (roundTimeLimit : Z) (elapsed : Q) : Q :=
  Qmax 0 (inject_Z roundTimeLimit - elapsed)%Q.

(** [Math.round(100 + speedBonus * 10)] *)
Definition points (timestamp : Z) (roundStartTime : option Z)
    (roundTimeLimit : Z) : Z :=
  Math_round (100 + speedBonus roundTimeLimit
                      (timeElapsed timestamp roundStartTime) * 10)%Q.

(** The names that every plain object inherits from [Object.prototype]. *)
Definition proto_names : list string :=
  [ "constructor"; "__defineGetter__"; "__defineSetter__"; "hasOwnProperty";
    "__lookupGetter__"; "__lookupSetter__"; "isPrototypeOf";
    "propertyIsEnumerable"; "toString"; "valueOf"; "__proto__";
    "toLocaleString" ].

(** [obj[key] = v] on a plain object, for a value [v] that is a string or a
    number: an own property is updated; otherwise the key becomes an own
    property, except ["__proto__"], whose inherited setter ignores such a
    value. *)
Definition js_assign {A} (key : string) (v : A) (obj : gmap string A)
    : gmap string A :=
  if bool_decide (is_Some (obj !! key)) then <[key := v]> obj
  else if bool_decide (key = "__proto__") then obj
  else <[key := v]> obj.

(** [obj[key] !== undefined] on a plain object whose own values are strings
    or numbers: true for an own property and for an inherited name. *)
Definition js_defined {A} (key : string) (obj : gmap string A) : bool :=
  bool_decide (is_Some (obj !! key)) || bool_decide (key ∈ proto_names).

(** [old + points] for the value [old] read from a score map; [None] is
    [undefined], and [undefined + points] is [NaN]. *)
Definition add_points (old : option jsnum) (pts : Z) : jsnum :=
  match old with
  | Some (Num z) => Num (z + pts)
  | Some NaN => NaN
  | Some Text => Text
  | None => NaN
  end.

(** [scores[key] += points]: the value read is the own one, else the
    inherited function or object (the sum is then a string), else
    [undefined]; the sum is assigned back. *)
Definition js_add_assign (key : string) (pts : Z) (scores : gmap string jsnum)
    : gmap string jsnum :=
  match scores !! key with
  | Some old => <[key := add_points (Some old) pts]> scores
  | None =>
      if bool_decide (key ∈ proto_names) then js_assign key Text scores
      else <[key := add_points None pts]> scores
  end.

(** [isRoundTimeUp(match)]; an anchor that is [undefined] or [0] is falsy. *)
Definition isRoundTimeUp (now : Z) (m : Match.t) : bool :=
  match Match.roundStartTime m with
  | None => false
  | Some t =>
      if t =? 0 then false
      else Qle_bool (inject_Z (Match.roundTimeLimit m))
                    (inject_Z (now - t)%Z / 1000)%Q
  end.

(** [finishRound(match)]: the match as it is left and the result returned;
    [None] when reading [currentRound.correctAnswer] throws. *)
Definition finishRound (m : Match.t) : option (Match.t * RoundResult.t) :=
  match round_at m with
  | None => None
  | Some currentRound =>
      let result := RoundResult.mk (Round.correctAnswer currentRound)
                      (Match.scores m) (Match.playerAnswers m)
                      (Match.currentRound m) in
      let m1 := Match.set_playerAnswers ∅ m in
      let m2 :=
        if (length (Match.rounds m1) <=? Match.currentRound m1)%nat
        then Match.set_state finished m1
        else Match.set_roundStartTime None
               (Match.set_currentRound (S (Match.currentRound m1)) m1) in
      Some (m2, result)
  end.

Definition put_match (matchId : string) (m : Match.t) (st : GameManager.t)
    : GameManager.t :=
  GameManager.mk (<[matchId := m]> (matches st)) (waitingPlayers st)
    (playerMatches st).

(** [submitGuess(matchId, playerId, guess)]; [now] is the [Date.now()] read by
    [isRoundTimeUp]. *)
Definition submitGuess (matchId playerId : string) (guess : PlayerGuess.t)
    (now : Z) (st : GameManager.t) : completion (option RoundResult.t) :=
  match matches st !! matchId with
  | None => Normal st None
  | Some m =>
      if bool_decide (Match.state m ≠ playing)
         || negb (PlayerGuess.roundNumber guess =? Z.of_nat (Match.currentRound m))
      then Normal st None
      else
        let m1 := Match.set_playerAnswers
                    (js_assign playerId (PlayerGuess.guess guess)
                       (Match.playerAnswers m)) m in
        match round_at m1 with
        | None => TypeError (put_match matchId m1 st)
        | Some currentRound =>
            let m2 :=
              if bool_decide (PlayerGuess.guess guess = Round.correctAnswer currentRound)
              then
                let pts := points (PlayerGuess.timestamp guess)
                             (Match.roundStartTime m1) (Match.roundTimeLimit m1) in
                Match.set_scores (js_add_assign playerId pts (Match.scores m1)) m1
              else m1 in
            let allAnswered :=
              js_defined (Match.player1Id m2) (Match.playerAnswers m2)
              && js_defined (Match.player2Id m2) (Match.playerAnswers m2) in
            if allAnswered || isRoundTimeUp now m2 then
              match finishRound m2 with
              | Some (m3, result) => Normal (put_match matchId m3 st) (Some result)
              | None => TypeError (put_match matchId m2 st)
              end
            else Normal (put_match matchId m2 st) None
        end
  end.

(** ** Forfeit and retention *)

(** [removePlayer(playerId)]; [if (matchId)] is false for the empty string. *)
Definition removePlayer (playerId : string) (st : GameManager.t) : GameManager.t :=
  let w := filter (λ p, Player.id p ≠ playerId) (waitingPlayers st) in
  match playerMatches st !! playerId with
  | None => GameManager.mk (matches st) w (playerMatches st)
  | Some matchId =>
      if bool_decide (matchId = "") then
        GameManager.mk (matches st) w (playerMatches st)
      else
        let ms :=
          match matches st !! matchId with
          | Some m =>
              if bool_decide (Match.state m ≠ finished)
              then <[matchId := Match.set_state finished m]> (matches st)
              else matches st
          | None => matches st
          end in
        GameManager.mk ms w (delete playerId (playerMatches st))
  end.

(** [const oneHourAgo = now - (60 * 60 * 1000)] *)
Definition oneHourAgo (now : Z) : Z := now - (60 * 60 * 1000).

(** The test of the loop of [cleanupFinishedMatches]:
    [match.state === 'finished' && (match.roundStartTime || 0) < oneHourAgo]. *)
Definition expired (now : Z) (m : Match.t) : bool :=
  bool_decide (Match.state m = finished)
  && (default 0 (Match.roundStartTime m) <? oneHourAgo now).

(** One iteration of the loop over [this.matches.entries()]. *)
Definition cleanup_entry (now : Z) (matchId : string) (m : Match.t)
    (st : GameManager.t) : GameManager.t :=
  if expired now m then
    GameManager.mk (delete matchId (matches st)) (waitingPlayers st)
      (delete (Match.player2Id m) (delete (Match.player1Id m) (playerMatches st)))
  else st.

(** [cleanupFinishedMatches()]: every entry of the table is visited once (a
    JS [Map] may lose the entry being visited during its iteration). *)
Definition cleanupFinishedMatches (now : Z) (st : GameManager.t) : GameManager.t :=
  map_fold (cleanup_entry now) st (matches st).

(** ** Lookups, results and statistics *)

Module GameResult.
Record t := mk {
  finalScores : gmap string jsnum;
  winner : string;
  matchId : string
}.
End GameResult.

Module Stats.
Record t := mk {
  activeMatches : nat;
  waitingPlayers : nat;
  totalMatches : nat
}.
End Stats.

(** [getMatch(matchId)] *)
Definition getMatch (matchId : string) (st : GameManager.t) : option Match.t :=
  matches st !! matchId.

(** [getPlayerMatch(playerId)]; [if (!matchId)] holds for a missing entry and
    for the empty string. *)
Definition getPlayerMatch (playerId : string) (st : GameManager.t)
    : option Match.t :=
  match playerMatches st !! playerId with
  | None => None
  | Some matchId =>
      if bool_decide (matchId = "") then None else matches st !! matchId
  end.

(** The comparison [a > b] of two values read from a score map: false as
    soon as one of them is [undefined] or [NaN], or a string that is no
    numeral beside a number.  (Two strings would be compared as strings; the
    score of a player is never a string.) *)
Definition js_gt (a b : option jsnum) : bool :=
  match a, b with
  | Some (Num x), Some (Num y) => y <? x
  | _, _ => false
  end.

(** [getGameResult(matchId)] *)
Definition getGameResult (matchId : string) (st : GameManager.t)
    : option GameResult.t :=
  match matches st !! matchId with
  | None => None
  | Some m =>
      if bool_decide (Match.state m ≠ finished) then None
      else
        let player1Score := Match.scores m !! Match.player1Id m in
        let player2Score := Match.scores m !! Match.player2Id m in
        let winner :=
          if js_gt player1Score player2Score then Match.player1Id m
          else if js_gt player2Score player1Score then Match.player2Id m
          else "tie" in
        Some (GameResult.mk (Match.scores m) winner matchId)
  end.

(** [getStats()] *)
Definition getStats (st : GameManager.t) : Stats.t :=
  Stats.mk
    (length (filter (λ m, Match.state m = playing) (map_to_list (matches st)).*2))
    (length (waitingPlayers st))
    (size (matches st)).

(** ** Operations and reachable states *)

Inductive op :=
| Enqueue (player : Player.t) (uuid : string) (shuffled : list Round.t)
| StartMatch (matchId : string) (now : Z)
| SubmitGuess (matchId playerId : string) (guess : PlayerGuess.t) (now : Z)
| RemovePlayer (playerId : string)
| Cleanup (now : Z).

Definition run (o : op) (st : GameManager.t) : GameManager.t :=
  match o with
  | Enqueue p uuid shuffled => state_of (addPlayerToQueue p uuid shuffled st)
  | StartMatch mid now => fst (startMatch mid now st)
  | SubmitGuess mid pid g now => state_of (submitGuess mid pid g now st)
  | RemovePlayer pid => removePlayer pid st
  | Cleanup now => cleanupFinishedMatches now st
  end.

Definition run_all (os : list op) (st : GameManager.t) : GameManager.t :=
  foldl (λ s o, run o s) st os.

Inductive reachable : GameManager.t → Prop :=
| reachable_init : reachable init
| reachable_run o st : reachable st → reachable (run o st).


(** ** Vocabulary of the properties *)

(** The position of a lifecycle state on [waiting → playing → finished]. *)
Definition rank (s : MatchState) : nat :=
  match s with waiting => 0 | playing => 1 | finished => 2 end.

(** The player has an entry in [playerMatches] that leads to a match which is
    not finished. *)
Definition maps_to_active (st : GameManager.t) (playerId : string) : Prop :=
  ∃ matchId m,
    playerMatches st !! playerId = Some matchId
    ∧ matches st !! matchId = Some m
    ∧ Match.state m ≠ finished.

(** A match keeps its two players. *)
Definition same_players (m m' : Match.t) : Prop :=
  Match.player1Id m' = Match.player1Id m ∧ Match.player2Id m' = Match.player2Id m.

(** A match keeps what [createMatch] fixed: its identifier, its players, its
    rounds and its time limit. *)
Definition same_setup (m m' : Match.t) : Prop :=
  Match.id m' = Match.id m
  ∧ Match.player1Id m' = Match.player1Id m
  ∧ Match.player2Id m' = Match.player2Id m
  ∧ Match.rounds m' = Match.rounds m
  ∧ Match.roundTimeLimit m' = Match.roundTimeLimit m.

(** A match moves forward: its state does not go back on
    [waiting → playing → finished] and its round index does not decrease. *)
Definition forward (m m' : Match.t) : Prop :=
  (rank (Match.state m) ≤ rank (Match.state m'))%nat
  ∧ (Match.currentRound m ≤ Match.currentRound m')%nat.

(** The retention window of the sweep: one hour, in milliseconds. *)
Definition retention : Z := 60 * 60 * 1000.

(** The manager between the insertion step of [addPlayerToQueue] and its
    call of [createMatch]. *)
Definition inserted (player : Player.t) (st : GameManager.t) : GameManager.t :=
  GameManager.mk (matches st)
    (filter (λ p, Player.id p ≠ Player.id player) (waitingPlayers st) ++ [player])
    (playerMatches st).

(** The invariant of the queue and the table. *)
Record queue_inv (st : GameManager.t) : Prop := {
  waiting_nodup : NoDup (Player.id <$> waitingPlayers st);
  waiting_unmapped :
    ∀ p, p ∈ waitingPlayers st → playerMatches st !! Player.id p = None;
  players_distinct :
    ∀ mid m, matches st !! mid = Some m → Match.player1Id m ≠ Match.player2Id m
}.

(** The score map after the scoring step of [submitGuess] for a guess made
    while [cur] is the current round. *)
Definition scored (pid : string) (g : PlayerGuess.t) (cur : Round.t)
    (m : Match.t) : gmap string jsnum :=
  if bool_decide (PlayerGuess.guess g = Round.correctAnswer cur) then
    js_add_assign pid
      (points (PlayerGuess.timestamp g) (Match.roundStartTime m)
         (Match.roundTimeLimit m))
      (Match.scores m)
  else Match.scores m.

(** The match as [finishRound] leaves it. *)
Definition advanced (m : Match.t) : Match.t :=
  if (length (Match.rounds m) <=? Match.currentRound m)%nat
  then Match.set_state finished (Match.set_playerAnswers ∅ m)
  else Match.set_roundStartTime None
         (Match.set_currentRound (S (Match.currentRound m))
            (Match.set_playerAnswers ∅ m)).

(** Observations of a match of the table, for the examples. *)
Definition score_of (st : GameManager.t) (matchId playerId : string) : option jsnum :=
  m ← matches st !! matchId; Match.scores m !! playerId.

Definition state_in (st : GameManager.t) (matchId : string) : option MatchState :=
  Match.state <$> matches st !! matchId.

Definition round_in (st : GameManager.t) (matchId : string) : option nat :=
  Match.currentRound <$> matches st !! matchId.

(** ** Runs with genuine identifiers and shuffles *)

#[global] Instance Round_eq_dec : EqDecision Round.t.
Proof. solve_decision. Defined.

(** What [uuidv4()] and the shuffle give in a real run: an identifier that is
    not empty and not in use, and a permutation of [songDatabase]. *)
Definition genuine (o : op) (st : GameManager.t) : Prop :=
  match o with
  | Enqueue _ uuid shuffled =>
      uuid ≠ "" ∧ matches st !! uuid = None ∧ shuffled ≡ₚ songDatabase
  | _ => True
  end.

Inductive played : GameManager.t → Prop :=
| played_init : played init
| played_run o st : played st → genuine o st → played (run o st).

(** The match that [createMatch] builds. *)
Definition new_match (uuid : string) (player1 player2 : Player.t)
    (shuffled : list Round.t) : Match.t :=
  Match.mk uuid (Player.id player1) (Player.id player2) 0
    (generateRounds 5 shuffled)
    (<[Player.id player2 := Num 0]> {[Player.id player1 := Num 0]})
    waiting None ∅ 15.

(** The ways in which one method call changes a match of the table. *)
Inductive match_step (m : Match.t) : Match.t → Prop :=
| step_start now :
    match_step m
      (Match.set_roundStartTime (Some now)
         (Match.set_currentRound 1%nat (Match.set_state playing m)))
| step_record pid g :
    Match.state m = playing →
    round_at m = None →
    match_step m
      (Match.set_playerAnswers
         (js_assign pid (PlayerGuess.guess g) (Match.playerAnswers m)) m)
| step_answer pid g cur :
    Match.state m = playing →
    round_at m = Some cur →
    match_step m
      (Match.set_scores (scored pid g cur m)
         (Match.set_playerAnswers
            (js_assign pid (PlayerGuess.guess g) (Match.playerAnswers m)) m))
| step_resolve pid g cur :
    Match.state m = playing →
    round_at m = Some cur →
    match_step m
      (advanced
         (Match.set_scores (scored pid g cur m)
            (Match.set_playerAnswers
               (js_assign pid (PlayerGuess.guess g) (Match.playerAnswers m)) m)))
| step_forfeit :
    Match.state m ≠ finished →
    match_step m (Match.set_state finished m).

(** The shape of every match of a run with genuine draws. *)
Record match_inv (mid : string) (m : Match.t) : Prop := {
  inv_id : Match.id m = mid;
  inv_rounds_length : length (Match.rounds m) = 5%nat;
  inv_rounds_nodup : NoDup (Match.rounds m);
  inv_rounds_pool : ∀ r, r ∈ Match.rounds m → r ∈ songDatabase;
  inv_limit : Match.roundTimeLimit m = 15;
  inv_round_le : (Match.currentRound m ≤ 5)%nat;
  inv_round_playing : Match.state m = playing → (1 ≤ Match.currentRound m)%nat;
  inv_round_waiting : Match.state m = waiting → Match.currentRound m = 0%nat
}.

(** Every entry of [playerMatches] leads to a match of the table that has the
    player, under an identifier that is not empty. *)
Definition mappings_sound (st : GameManager.t) : Prop :=
  ∀ p mid, playerMatches st !! p = Some mid →
    mid ≠ ""
    ∧ ∃ m, matches st !! mid = Some m
           ∧ (p = Match.player1Id m ∨ p = Match.player2Id m).

(** ** A sample session, used to evaluate the methods *)

Definition alice : Player.t := Player.mk "a" "Alice" "socket-1" None.
Definition bob : Player.t := Player.mk "b" "Bob" "socket-2" None.

Definition dynamite : Round.t :=
  Round.mk "https://example.com/audio/dynamite.mp3"
    ["Dynamite"; "Butter"; "Permission to Dance"; "Life Goes On"] "Dynamite".

(** Alice asks for an opponent and waits. *)
Definition one_waiting : GameManager.t :=
  run (Enqueue alice "m1" songDatabase) init.

(** Bob asks too: they are paired in match ["m1"]. *)
Definition paired : GameManager.t :=
  run (Enqueue bob "m1" songDatabase) one_waiting.

(** The match is started at time [1000000]. *)
Definition started : GameManager.t := run (StartMatch "m1" 1000000) paired.

(** The match ["m1"] as it stands in [started]. *)
Definition m1_started : Match.t :=
  Match.mk "m1" "a" "b" 1 (generateRounds 5 songDatabase)
    (<["b" := Num 0]> {["a" := Num 0]}) playing (Some 1000000) ∅ 15.

(** Alice gives the right answer of round 1 at once. *)
Definition alice_guess : PlayerGuess.t := PlayerGuess.mk 1 "Dynamite" 1000000.

Definition alice_answered : GameManager.t :=
  run (SubmitGuess "m1" "a" alice_guess 1000000) started.

(** The match ["m1"] as it stands in [alice_answered]. *)
Definition m1_alice_answered : Match.t :=
  Match.mk "m1" "a" "b" 1 (generateRounds 5 songDatabase)
    (<["a" := Num 250]> (<["b" := Num 0]> {["a" := Num 0]}))
    playing (Some 1000000) {["a" := "Dynamite"]} 15.

(** Bob gives a wrong answer: round 1 resolves. *)
Definition bob_guess : PlayerGuess.t := PlayerGuess.mk 1 "Butter" 1000000.

Definition round1_done : GameManager.t :=
  run (SubmitGuess "m1" "b" bob_guess 1000000) alice_answered.

Definition round1_result : RoundResult.t :=
  RoundResult.mk "Dynamite"
    (<["a" := Num 250]> (<["b" := Num 0]> {["a" := Num 0]}))
    (<["b" := "Butter"]> {["a" := "Dynamite"]}) 1.

(** Alice answers round 2 before it has been started. *)
Definition early_answer : GameManager.t :=
  run (SubmitGuess "m1" "a" (PlayerGuess.mk 2 "Gangnam Style" 1500000) 1500000)
    round1_done.

(** The forced timeout of round 1, sixteen seconds after its start, and the
    result it returns in [started]. *)
Definition timeout_guess : PlayerGuess.t := PlayerGuess.mk 1 "" 1016000.

Definition timeout_result : RoundResult.t :=
  RoundResult.mk "Dynamite" (<["b" := Num 0]> {["a" := Num 0]})
    {["system" := ""]} 1.

(** Bob disconnects while round 1 is being played. *)
Definition forfeited : GameManager.t := run (RemovePlayer "b") started.

(** The match ["m1"] as it stands in [forfeited]. *)
Definition m1_forfeited : Match.t := Match.set_state finished m1_started.

(** Carol, and the session in which Bob, after leaving ["m1"], asks again and
    is paired with her in match ["m2"]. *)
Definition carol : Player.t := Player.mk "c" "Carol" "socket-3" None.

Definition rematched : GameManager.t :=
  run (Enqueue carol "m2" songDatabase)
    (run (Enqueue bob "m2" songDatabase) forfeited).

(** A session on a wall clock: the match is started at [epoch]; round 1
    is resolved by the answers of both players one and two seconds later
    (the anchor is cleared); then Bob leaves. *)
Definition epoch : Z := 1700000000000.

Definition between_rounds_forfeit : GameManager.t :=
  run_all
    [ StartMatch "m1" epoch;
      SubmitGuess "m1" "a" (PlayerGuess.mk 1 "Dynamite" (epoch + 1000)) (epoch + 1000);
      SubmitGuess "m1" "b" (PlayerGuess.mk 1 "Butter" (epoch + 2000)) (epoch + 2000);
      RemovePlayer "b" ]
    paired.

(** A match of Alice with a player whose identifier is a name that plain
    objects inherit. *)
Definition constance : Player.t :=
  Player.mk "constructor" "Constance" "socket-4" None.

Definition inherited_started : GameManager.t :=
  run_all
    [ Enqueue alice "m9" songDatabase; Enqueue constance "m9" songDatabase;
      StartMatch "m9" 1000000 ]
    init.

(** A table in which Alice waits first in the queue although she is mapped to
    the match ["m0"], which is being played. *)
Definition stale_queue : GameManager.t :=
  GameManager.mk
    {[ "m0" := Match.mk "m0" "a" "c" 1 (generateRounds 5 songDatabase)
                 (<["c" := Num 0]> {["a" := Num 0]}) playing (Some 1000000) ∅ 15 ]}
    [alice; bob]
    {[ "a" := "m0" ]}.

(** * Properties *)

(** ** Scoring *)

Ltac q_arith :=
  unfold Qeq, Qle, Qminus, Qplus, Qopp, Qdiv, Qmult, Qinv, inject_Z; simpl; lia.

Section Scoring.

Lemma speedBonus_closed (l d : Z) :
  (Qmax 0 (inject_Z l - inject_Z d / 1000)
   == inject_Z (Z.max 0 (l * 1000 - d)) / 1000)%Q.
Proof.
  destruct (Z.le_gt_cases (l * 1000 - d) 0) as [H|H].
  - rewrite Z.max_l by lia. rewrite Q.max_l; [reflexivity | q_arith].
  - rewrite Z.max_r by lia. rewrite Q.max_r; q_arith.
Qed.

(** The points in integer arithmetic, [d] being the milliseconds between the
    anchor (or 0) and the answer. *)
Lemma points_closed ts start l :
  points ts start l
  = (10050 + Z.max 0 (l * 1000 - (ts - default 0 start))) / 100.
Proof.
  unfold points, Math_round, speedBonus, timeElapsed.
  rewrite speedBonus_closed.
  set (M := Z.max 0 _).
  assert (E : (100 + inject_Z M / 1000 * 10 + (1 # 2) == (10050 + M) # 100)%Q)
    by q_arith.
  rewrite E. reflexivity.
Qed.

(** A later answer never earns more. *)
Lemma points_antitone ts1 ts2 start l :
  ts1 ≤ ts2 → points ts2 start l ≤ points ts1 start l.
Proof.
  intros H. rewrite !points_closed.
  apply Z.div_le_mono; lia.
Qed.

(** A correct answer earns at least the base points. *)
Lemma points_ge_base ts start l : 100 ≤ points ts start l.
Proof.
  rewrite points_closed.
  apply Z.div_le_lower_bound; lia.
Qed.

(** An answer stamped at or after the anchor earns at most base + 10 per
    second of the limit: 250 for the limit of 15 seconds. *)
Lemma points_le_max ts start l :
  0 ≤ l → default 0 start ≤ ts → points ts start l ≤ 100 + l * 10.
Proof.
  intros Hl H. rewrite points_closed.
  apply Z.lt_succ_r, Z.div_lt_upper_bound; lia.
Qed.

(** With the elapsed time clamped at 0, as long as the stamp is not before
    the anchor: the formula of the scoring engine. *)
Lemma points_clamped ts a l :
  a ≤ ts →
  points ts (Some a) l
  = Math_round (100 + Qmax 0 (inject_Z l - inject_Z (Z.max 0 (ts - a)) / 1000) * 10)%Q.
Proof.
  intros H. unfold points, speedBonus, timeElapsed. simpl.
  rewrite (Z.max_r 0 (ts - a)) by lia. reflexivity.
Qed.

End Scoring.

(** ** Answer submission *)

Section PlainObjects.

Context {A : Type}.
Implicit Types (obj : gmap string A) (key : string) (v : A).

Lemma js_assign_insert key v obj :
  key ≠ "__proto__" → js_assign key v obj = <[key := v]> obj.
Proof.
  intros H. unfold js_assign. destruct (bool_decide (is_Some _)); [done|].
  by rewrite bool_decide_eq_false_2.
Qed.

Lemma js_assign_lookup_ne key key' v obj :
  key ≠ key' → js_assign key v obj !! key' = obj !! key'.
Proof.
  intros H. unfold js_assign.
  repeat (destruct (bool_decide _)); by rewrite ?lookup_insert_ne.
Qed.

Lemma js_assign_lookup_own key v old obj :
  obj !! key = Some old → js_assign key v obj !! key = Some v.
Proof.
  intros H. unfold js_assign.
  rewrite bool_decide_eq_true_2 by eauto. apply lookup_insert_eq.
Qed.

Lemma js_assign_twice key v w obj :
  js_assign key v (js_assign key w obj) = js_assign key v obj.
Proof.
  unfold js_assign.
  destruct (bool_decide (is_Some (obj !! key))) eqn:Hown.
  - rewrite lookup_insert_eq, bool_decide_eq_true_2 by eauto.
    apply insert_insert_eq.
  - destruct (bool_decide (key = "__proto__")) eqn:Hp.
    + by rewrite Hown.
    + rewrite lookup_insert_eq, bool_decide_eq_true_2 by eauto.
      apply insert_insert_eq.
Qed.

Lemma js_defined_assign_ne key key' v obj :
  key ≠ key' → js_defined key' (js_assign key v obj) = js_defined key' obj.
Proof. intros H. unfold js_defined. by rewrite js_assign_lookup_ne. Qed.

Lemma js_defined_false key obj :
  js_defined key obj = false ↔ obj !! key = None ∧ key ∉ proto_names.
Proof.
  unfold js_defined. rewrite orb_false_iff, !bool_decide_eq_false.
  rewrite <- eq_None_not_Some. done.
Qed.

End PlainObjects.

Lemma js_add_assign_lookup_ne key key' pts (scores : gmap string jsnum) :
  key ≠ key' → js_add_assign key pts scores !! key' = scores !! key'.
Proof.
  intros H. unfold js_add_assign. destruct (scores !! key).
  - by rewrite lookup_insert_ne.
  - destruct (bool_decide _).
    + by apply js_assign_lookup_ne.
    + by rewrite lookup_insert_ne.
Qed.

Lemma js_add_assign_lookup_own key pts old (scores : gmap string jsnum) :
  scores !! key = Some old →
  js_add_assign key pts scores !! key = Some (add_points (Some old) pts).
Proof. intros H. unfold js_add_assign. rewrite H. apply lookup_insert_eq. Qed.

Section Submission.

Lemma round_at_set_playerAnswers a m :
  round_at (Match.set_playerAnswers a m) = round_at m.
Proof. reflexivity. Qed.

Lemma round_at_set_scores s m : round_at (Match.set_scores s m) = round_at m.
Proof. reflexivity. Qed.

(** The guard of [submitGuess]: the call is ignored. *)
Lemma submitGuess_ignored mid pid g now st :
  (∀ m, matches st !! mid = Some m →
        Match.state m ≠ playing
        ∨ PlayerGuess.roundNumber g ≠ Z.of_nat (Match.currentRound m)) →
  submitGuess mid pid g now st = Normal st None.
Proof.
  intros H. unfold submitGuess.
  destruct (matches st !! mid) as [m|] eqn:Hm; [|done].
  destruct (H m eq_refl) as [Hs|Hr].
  - by rewrite bool_decide_eq_true_2.
  - apply Z.eqb_neq in Hr. rewrite Hr. by rewrite orb_true_r.
Qed.

(** An answer that is not the correct one leaves the score map as it is. *)
Lemma submitGuess_incorrect_keeps_scores mid pid g now st m cur m' :
  matches st !! mid = Some m →
  round_at m = Some cur →
  PlayerGuess.guess g ≠ Round.correctAnswer cur →
  matches (state_of (submitGuess mid pid g now st)) !! mid = Some m' →
  Match.scores m' = Match.scores m.
Proof.
  intros Hm Hcur Hne. unfold submitGuess. rewrite Hm.
  destruct (_ || _); simpl.
  { rewrite Hm. by intros [= <-]. }
  rewrite round_at_set_playerAnswers, Hcur.
  rewrite (bool_decide_eq_false_2 _ Hne).
  destruct (_ || _).
  - unfold finishRound. rewrite round_at_set_playerAnswers, Hcur. simpl.
    rewrite lookup_insert_eq. intros [= <-]. by destruct (_ <=? _)%nat.
  - simpl. rewrite lookup_insert_eq. by intros [= <-].
Qed.

Lemma finishRound_eq m cur :
  round_at m = Some cur →
  finishRound m
  = Some (advanced m,
          RoundResult.mk (Round.correctAnswer cur) (Match.scores m)
            (Match.playerAnswers m) (Match.currentRound m)).
Proof. intros H. unfold finishRound. by rewrite H. Qed.

(** [submitGuess] past its guard. *)
Lemma submitGuess_accepted mid pid g now st m cur :
  matches st !! mid = Some m →
  Match.state m = playing →
  PlayerGuess.roundNumber g = Z.of_nat (Match.currentRound m) →
  round_at m = Some cur →
  let answers := js_assign pid (PlayerGuess.guess g) (Match.playerAnswers m) in
  let m2 := Match.set_scores (scored pid g cur m)
              (Match.set_playerAnswers answers m) in
  submitGuess mid pid g now st
  = if (js_defined (Match.player1Id m) answers
        && js_defined (Match.player2Id m) answers)
       || isRoundTimeUp now m
    then Normal (put_match mid (advanced m2) st)
           (Some (RoundResult.mk (Round.correctAnswer cur) (scored pid g cur m)
                    answers (Match.currentRound m)))
    else Normal (put_match mid m2 st) None.
Proof.
  intros Hm Hs Hr Hcur answers m2. unfold submitGuess.
  rewrite Hm, Hs, Hr, Z.eqb_refl. simpl.
  rewrite round_at_set_playerAnswers, Hcur.
  subst m2 answers. unfold scored, advanced, finishRound, isRoundTimeUp, round_at in *.
  destruct m as [i p1 p2 cr rs sc s rst pa lim]; simpl in *.
  destruct (bool_decide (PlayerGuess.guess g = Round.correctAnswer cur));
    simpl; destruct (_ || _); try done; by rewrite Hcur.
Qed.

End Submission.

(** ** Round resolution *)

Section Resolution.

Lemma isRoundTimeUp_true now m t :
  Match.roundStartTime m = Some t → t ≠ 0 →
  Match.roundTimeLimit m * 1000 ≤ now - t →
  isRoundTimeUp now m = true.
Proof.
  intros Ht Hz Hle. unfold isRoundTimeUp. rewrite Ht.
  apply Z.eqb_neq in Hz. rewrite Hz.
  apply Qle_bool_iff. q_arith.
Qed.

Lemma advanced_spec m :
  Match.playerAnswers (advanced m) = ∅
  ∧ Match.scores (advanced m) = Match.scores m
  ∧ if (length (Match.rounds m) <=? Match.currentRound m)%nat
    then Match.state (advanced m) = finished
         ∧ Match.currentRound (advanced m) = Match.currentRound m
         ∧ Match.roundStartTime (advanced m) = Match.roundStartTime m
    else Match.state (advanced m) = Match.state m
         ∧ Match.currentRound (advanced m) = S (Match.currentRound m)
         ∧ Match.roundStartTime (advanced m) = None.
Proof. unfold advanced. by destruct (_ <=? _)%nat. Qed.

Lemma advanced_same_setup m : same_setup m (advanced m).
Proof. unfold advanced. by destruct (_ <=? _)%nat. Qed.

(** C3 (amended): when [submitGuess] resolves a round, the returned
    RoundResult holds the correct answer of the current round, the scores
    (with the points of this submission), the pending answers as they stand
    once this submission is recorded (it is among them unless it was made
    under the name ["__proto__"], which a plain object does not store) and
    the round number; the match keeps its identifier, players, rounds and
    limit, and its pending-answer map is left empty; if the round was the
    last one the state becomes [finished] and the round index and the
    anchor stay, otherwise [finishRound] itself increments the round index
    and clears the anchor. *)
Theorem submitGuess_resolution mid pid g now st st' m r :
  matches st !! mid = Some m →
  submitGuess mid pid g now st = Normal st' (Some r) →
  ∃ cur m',
    round_at m = Some cur
    ∧ matches st' !! mid = Some m'
    ∧ r = RoundResult.mk (Round.correctAnswer cur) (scored pid g cur m)
            (js_assign pid (PlayerGuess.guess g) (Match.playerAnswers m))
            (Match.currentRound m)
    ∧ (pid ≠ "__proto__" →
       RoundResult.playerAnswers r !! pid = Some (PlayerGuess.guess g))
    ∧ same_setup m m'
    ∧ Match.scores m' = scored pid g cur m
    ∧ Match.playerAnswers m' = ∅
    ∧ if (length (Match.rounds m) <=? Match.currentRound m)%nat
      then Match.state m' = finished
           ∧ Match.currentRound m' = Match.currentRound m
           ∧ Match.roundStartTime m' = Match.roundStartTime m
      else Match.state m' = playing
           ∧ Match.currentRound m' = S (Match.currentRound m)
           ∧ Match.roundStartTime m' = None.
Proof.
  intros Hm Hs.
  destruct (decide (Match.state m = playing)) as [Hp|Hp]; cycle 1.
  { rewrite submitGuess_ignored in Hs; [done|]. intros m0 ?. left. congruence. }
  destruct (decide (PlayerGuess.roundNumber g = Z.of_nat (Match.currentRound m)))
    as [Hr|Hr]; cycle 1.
  { rewrite submitGuess_ignored in Hs; [done|]. intros m0 ?. right. congruence. }
  destruct (round_at m) as [cur|] eqn:Hcur; cycle 1.
  { unfold submitGuess in Hs. rewrite Hm, Hp, Hr, Z.eqb_refl in Hs. simpl in Hs.
    by rewrite round_at_set_playerAnswers, Hcur in Hs. }
  rewrite (submitGuess_accepted _ _ _ _ _ m cur) in Hs by done.
  destruct (_ || _); [|done].
  injection Hs as <- <-.
  set (m2 := Match.set_scores _ _).
  exists cur, (advanced m2). split; [done|]. split.
  { simpl. by rewrite lookup_insert_eq. }
  split; [done|].
  split.
  { intros Hne. simpl. rewrite js_assign_insert by done. apply lookup_insert_eq. }
  split; [apply (advanced_same_setup m2)|].
  destruct (advanced_spec m2) as (Ha & Hsc & Hadv).
  split; [by rewrite Hsc|]. split; [done|].
  change (Match.rounds m2) with (Match.rounds m) in Hadv.
  change (Match.currentRound m2) with (Match.currentRound m) in Hadv.
  change (Match.roundStartTime m2) with (Match.roundStartTime m) in Hadv.
  change (Match.state m2) with (Match.state m) in Hadv.
  rewrite Hp in Hadv. done.
Qed.

(** C6 (amended): when neither player has a pending answer, the anchor is
    set and the time limit has elapsed, a submission of the empty string
    for the current round by an identity that is not a player (and not the
    name ["__proto__"]) resolves the round and grants no points: the
    RoundResult carries the unchanged scores and an answer map that holds the
    synthetic identity's empty answer (and no answer of a player); the match
    keeps its identifier, players, rounds and limit, and then advances, or
    finishes if the round was the last one. *)
Theorem forced_timeout_resolution mid sys ts now st m cur t :
  matches st !! mid = Some m →
  Match.state m = playing →
  round_at m = Some cur →
  Round.correctAnswer cur ≠ "" →
  sys ≠ "__proto__" →
  sys ≠ Match.player1Id m →
  sys ≠ Match.player2Id m →
  Match.playerAnswers m !! Match.player1Id m = None →
  Match.playerAnswers m !! Match.player2Id m = None →
  Match.roundStartTime m = Some t → t ≠ 0 →
  Match.roundTimeLimit m * 1000 ≤ now - t →
  ∃ st' m',
    submitGuess mid sys (PlayerGuess.mk (Z.of_nat (Match.currentRound m)) "" ts) now st
    = Normal st'
        (Some (RoundResult.mk (Round.correctAnswer cur) (Match.scores m)
                 (<[sys := ""]> (Match.playerAnswers m)) (Match.currentRound m)))
    ∧ <[sys := ""]> (Match.playerAnswers m) !! sys = Some ""
    ∧ <[sys := ""]> (Match.playerAnswers m) !! Match.player1Id m = None
    ∧ <[sys := ""]> (Match.playerAnswers m) !! Match.player2Id m = None
    ∧ matches st' !! mid = Some m'
    ∧ same_setup m m'
    ∧ Match.scores m' = Match.scores m
    ∧ Match.playerAnswers m' = ∅
    ∧ if (length (Match.rounds m) <=? Match.currentRound m)%nat
      then Match.state m' = finished
           ∧ Match.currentRound m' = Match.currentRound m
      else Match.state m' = playing
           ∧ Match.currentRound m' = S (Match.currentRound m)
           ∧ Match.roundStartTime m' = None.
Proof.
  intros Hm Hp Hcur Hne Hproto H1 H2 Ha1 Ha2 Ht Hz Hle.
  rewrite (submitGuess_accepted _ _ _ _ _ m cur) by done.
  rewrite (isRoundTimeUp_true now m t) by done. rewrite orb_true_r.
  unfold scored. simpl.
  rewrite bool_decide_eq_false_2 by congruence.
  rewrite js_assign_insert by done.
  set (m2 := Match.set_scores _ _).
  destruct (advanced_spec m2) as (Hpa & Hsc & Hadv).
  eexists _, (advanced m2). split; [done|].
  rewrite lookup_insert_eq, !lookup_insert_ne by done.
  repeat (split; [done|]).
  split; [simpl; by rewrite lookup_insert_eq|].
  split; [apply (advanced_same_setup m2)|].
  repeat (split; [done|]).
  change (Match.rounds m2) with (Match.rounds m) in Hadv.
  change (Match.currentRound m2) with (Match.currentRound m) in Hadv.
  change (Match.state m2) with (Match.state m) in Hadv.
  rewrite Hp in Hadv.
  destruct (_ <=? _)%nat; intuition.
Qed.

(** C10: a correct answer that is submitted again before the round resolves
    is scored again: while the opponent's answer is not defined (no answer
    recorded, and an identifier that a plain object does not inherit) and the
    time is not up, two such submissions by one player leave the round open
    and the player's score grown by the points of both; with the limit of 15
    seconds and both answers within 10 seconds of the anchor the gain is
    beyond the 250 points of one answer. *)
Theorem resubmission_scores_again mid pid g1 g2 now1 now2 st m cur s :
  matches st !! mid = Some m →
  Match.state m = playing →
  round_at m = Some cur →
  PlayerGuess.roundNumber g1 = Z.of_nat (Match.currentRound m) →
  PlayerGuess.roundNumber g2 = Z.of_nat (Match.currentRound m) →
  PlayerGuess.guess g1 = Round.correctAnswer cur →
  PlayerGuess.guess g2 = Round.correctAnswer cur →
  Match.scores m !! pid = Some (Num s) →
  (js_defined (Match.player1Id m) (Match.playerAnswers m) = false
   ∧ pid ≠ Match.player1Id m)
  ∨ (js_defined (Match.player2Id m) (Match.playerAnswers m) = false
     ∧ pid ≠ Match.player2Id m) →
  isRoundTimeUp now1 m = false →
  isRoundTimeUp now2 m = false →
  let pts1 := points (PlayerGuess.timestamp g1) (Match.roundStartTime m)
                (Match.roundTimeLimit m) in
  let pts2 := points (PlayerGuess.timestamp g2) (Match.roundStartTime m)
                (Match.roundTimeLimit m) in
  ∃ st1 st2 m2,
    submitGuess mid pid g1 now1 st = Normal st1 None
    ∧ submitGuess mid pid g2 now2 st1 = Normal st2 None
    ∧ matches st2 !! mid = Some m2
    ∧ Match.state m2 = playing
    ∧ Match.currentRound m2 = Match.currentRound m
    ∧ Match.scores m2 !! pid = Some (Num (s + pts1 + pts2))
    ∧ 200 ≤ pts1 + pts2
    ∧ (Match.roundTimeLimit m = 15 →
       PlayerGuess.timestamp g1 - default 0 (Match.roundStartTime m) ≤ 10000 →
       PlayerGuess.timestamp g2 - default 0 (Match.roundStartTime m) ≤ 10000 →
       250 < pts1 + pts2).
Proof.
  intros Hm Hp Hcur Hr1 Hr2 Hg1 Hg2 Hs Hopp Hn1 Hn2 pts1 pts2.
  assert (Hopen : ∀ a,
    js_defined (Match.player1Id m) (js_assign pid a (Match.playerAnswers m))
    && js_defined (Match.player2Id m) (js_assign pid a (Match.playerAnswers m))
    = false).
  { intros a. destruct Hopp as [[Hn Hne]|[Hn Hne]].
    - by rewrite js_defined_assign_ne, Hn.
    - rewrite (js_defined_assign_ne pid (Match.player2Id m)), Hn by done.
      apply andb_false_r. }
  pose proof (submitGuess_accepted mid pid g1 now1 st m cur Hm Hp Hr1 Hcur) as E1.
  simpl in E1. rewrite Hopen, Hn1 in E1. simpl in E1.
  set (m1 := Match.set_scores _ _) in E1.
  set (st1 := put_match mid m1 st) in E1.
  assert (Hm1 : matches st1 !! mid = Some m1) by (simpl; by rewrite lookup_insert_eq).
  pose proof (submitGuess_accepted mid pid g2 now2 st1 m1 cur Hm1 Hp Hr2 Hcur) as E2.
  simpl in E2. rewrite js_assign_twice, Hopen in E2.
  change (isRoundTimeUp now2 m1) with (isRoundTimeUp now2 m) in E2.
  rewrite Hn2 in E2. simpl in E2.
  eexists st1, _, _. split; [done|]. split; [exact E2|].
  split; [simpl; by rewrite lookup_insert_eq|].
  split; [done|]. split; [done|].
  split.
  { unfold scored at 1. simpl. rewrite bool_decide_eq_true_2 by done.
    assert (Hs1 : scored pid g1 cur m !! pid = Some (Num (s + pts1))).
    { unfold scored. rewrite bool_decide_eq_true_2 by done.
      by rewrite (js_add_assign_lookup_own _ _ (Num s)). }
    rewrite (js_add_assign_lookup_own _ _ (Num (s + pts1))) by done. done. }
  split.
  { pose proof (points_ge_base (PlayerGuess.timestamp g1) (Match.roundStartTime m)
                  (Match.roundTimeLimit m)).
    pose proof (points_ge_base (PlayerGuess.timestamp g2) (Match.roundStartTime m)
                  (Match.roundTimeLimit m)). lia. }
  intros Hl Ht1 Ht2. subst pts1 pts2. rewrite !points_closed, Hl.
  assert (∀ d, d ≤ 10000 → 150 ≤ (10050 + Z.max 0 (15 * 1000 - d)) / 100) as Hb.
  { intros d Hd. apply Z.div_le_lower_bound; lia. }
  pose proof (Hb _ Ht1). pose proof (Hb _ Ht2). lia.
Qed.

End Resolution.

(** ** What the methods leave untouched *)

Section Frames.

(** What [submitGuess] may do to the table: nothing, or replace the match by
    one with the same players that has moved forward. *)
Lemma submitGuess_shape mid pid g now st :
  state_of (submitGuess mid pid g now st) = st
  ∨ ∃ m m', matches st !! mid = Some m
            ∧ state_of (submitGuess mid pid g now st) = put_match mid m' st
            ∧ same_players m m' ∧ forward m m'.
Proof.
  unfold submitGuess.
  destruct (matches st !! mid) as [m|] eqn:Hm; [|by left].
  destruct (_ || _); [by left|]. right. exists m.
  rewrite round_at_set_playerAnswers.
  destruct (round_at m) as [cur|] eqn:Hcur.
  2:{ eexists. split; [done|]. split; [done|]. by repeat split. }
  set (m2 := if bool_decide _ then _ else _).
  assert (H2 : same_players m m2 ∧ forward m m2
               ∧ round_at m2 = Some cur).
  { subst m2. destruct (bool_decide _); by repeat split. }
  destruct H2 as ([Hp1 Hp2] & [Hr Hc] & Hcur2).
  destruct (_ || _).
  - rewrite (finishRound_eq _ cur) by done. simpl.
    eexists. split; [done|]. split; [done|].
    unfold advanced. destruct (_ <=? _)%nat; (split; [by split|]); split; simpl;
      try done; try lia.
    destruct (Match.state m2); simpl in *; lia.
  - eexists. split; [done|]. split; [done|]. by repeat split.
Qed.

(** [cleanupFinishedMatches] entry by entry. *)
Lemma cleanup_spec now st :
  let st' := cleanupFinishedMatches now st in
  waitingPlayers st' = waitingPlayers st
  ∧ (∀ k, matches st' !! k
          = m ← matches st !! k; if expired now m then None else Some m)
  ∧ (∀ p, (∃ k m, matches st !! k = Some m ∧ expired now m = true
                  ∧ (p = Match.player1Id m ∨ p = Match.player2Id m)) →
          playerMatches st' !! p = None)
  ∧ (∀ p, (∀ k m, matches st !! k = Some m → expired now m = true →
                  p ≠ Match.player1Id m ∧ p ≠ Match.player2Id m) →
          playerMatches st' !! p = playerMatches st !! p).
Proof.
  unfold cleanupFinishedMatches.
  (* the table that is folded over is generalised: the fold starts from [st] *)
  cut (∀ ms : gmap string Match.t, ms ⊆ matches st →
    let st' := map_fold (cleanup_entry now) st ms in
    waitingPlayers st' = waitingPlayers st
    ∧ (∀ k, matches st' !! k
            = match ms !! k with
              | Some m => if expired now m then None else matches st !! k
              | None => matches st !! k
              end)
    ∧ (∀ p, (∃ k m, ms !! k = Some m ∧ expired now m = true
                    ∧ (p = Match.player1Id m ∨ p = Match.player2Id m)) →
            playerMatches st' !! p = None)
    ∧ (∀ p, (∀ k m, ms !! k = Some m → expired now m = true →
                    p ≠ Match.player1Id m ∧ p ≠ Match.player2Id m) →
            playerMatches st' !! p = playerMatches st !! p)).
  { intros H. destruct (H (matches st)) as (Hw & Hm & Hp1 & Hp2); [done|].
    split; [done|]. split; [|by split].
    intros k. rewrite Hm. destruct (matches st !! k); simpl; [|done].
    by destruct (expired now t0). }
  intros ms. 
  apply (map_fold_weak_ind
    (λ r ms, ms ⊆ matches st →
       waitingPlayers r = waitingPlayers st
       ∧ (∀ k, matches r !! k
            = match ms !! k with
              | Some m => if expired now m then None else matches st !! k
              | None => matches st !! k
              end)
       ∧ (∀ p, (∃ k m, ms !! k = Some m ∧ expired now m = true
                    ∧ (p = Match.player1Id m ∨ p = Match.player2Id m)) →
            playerMatches r !! p = None)
       ∧ (∀ p, (∀ k m, ms !! k = Some m → expired now m = true →
                    p ≠ Match.player1Id m ∧ p ≠ Match.player2Id m) →
            playerMatches r !! p = playerMatches st !! p))).
  - intros _. split; [done|]. split; [intros k; by rewrite lookup_empty|].
    split; [|done]. intros p (k & m & Hk & _). by rewrite lookup_empty in Hk.
  - clear ms. intros i x ms r Hi IH Hsub.
    assert (Hsub' : ms ⊆ matches st).
    { etrans; [|exact Hsub]. by apply insert_subseteq. }
    destruct (IH Hsub') as (Hw & Hm & Hp1 & Hp2). clear IH.
    unfold cleanup_entry. destruct (expired now x) eqn:Hx.
    + split; [done|]. split; [|split].
      * intros k. simpl. destruct (decide (i = k)) as [->|Hne].
        -- by rewrite lookup_delete_eq, lookup_insert_eq, Hx.
        -- by rewrite lookup_delete_ne, lookup_insert_ne, Hm.
      * intros p (k & m & Hk & Hem & Hp). simpl.
        destruct (decide (p = Match.player2Id x)) as [->|Hn2];
          [by rewrite lookup_delete_eq|rewrite lookup_delete_ne by done].
        destruct (decide (p = Match.player1Id x)) as [->|Hn1];
          [by rewrite lookup_delete_eq|rewrite lookup_delete_ne by done].
        apply Hp1. exists k, m. split; [|done].
        destruct (decide (i = k)) as [->|Hne].
        -- rewrite lookup_insert_eq in Hk. injection Hk as <-.
           by destruct Hp.
        -- by rewrite lookup_insert_ne in Hk.
      * intros p Hp. simpl.
        destruct (Hp i x) as [Hn1 Hn2]; [by rewrite lookup_insert_eq|done|].
        rewrite !lookup_delete_ne by done. apply Hp2.
        intros k m Hk. apply (Hp k). rewrite lookup_insert_ne; [done|].
        intros ->. congruence.
    + split; [done|]. split; [|split].
      * intros k. rewrite Hm. destruct (decide (i = k)) as [->|Hne].
        -- by rewrite lookup_insert_eq, Hi, Hx.
        -- by rewrite lookup_insert_ne.
      * intros p (k & m & Hk & Hem & Hp). apply Hp1. exists k, m. split; [|done].
        destruct (decide (i = k)) as [->|Hne].
        -- rewrite lookup_insert_eq in Hk. congruence.
        -- by rewrite lookup_insert_ne in Hk.
      * intros p Hp. apply Hp2. intros k m Hk. apply (Hp k).
        rewrite lookup_insert_ne; [done|]. intros ->. congruence.
Qed.

End Frames.

(** ** The matchmaking queue *)

Section Queue.

Lemma createMatch_front uuid shuffled ms pm p1 p2 rest :
  createMatch uuid shuffled (GameManager.mk ms (p1 :: p2 :: rest) pm)
  = Normal
      (GameManager.mk
         (<[uuid := Match.mk uuid (Player.id p1) (Player.id p2) 0
                      (generateRounds 5 shuffled)
                      (<[Player.id p2 := Num 0]> {[Player.id p1 := Num 0]})
                      waiting None ∅ 15]> ms)
         rest
         (<[Player.id p2 := uuid]> (<[Player.id p1 := uuid]> pm)))
      uuid.
Proof. reflexivity. Qed.

(** The waiting list after the insertion step of [addPlayerToQueue]. *)
Lemma inserted_nodup (player : Player.t) (w : list Player.t) :
  NoDup (Player.id <$> w) →
  NoDup (Player.id <$>
           filter (λ p, Player.id p ≠ Player.id player) w ++ [player]).
Proof.
  intros Hnd. rewrite fmap_app. apply NoDup_app. split; [|split].
  - eapply sublist_NoDup; [exact Hnd|]. apply fmap_sublist, sublist_filter.
  - intros x (p & -> & Hp)%list_elem_of_fmap.
    apply list_elem_of_filter in Hp as [Hne _].
    simpl. rewrite list_elem_of_singleton. done.
  - simpl. apply NoDup_singleton.
Qed.

Lemma inserted_unmapped (pm : gmap string string) (player : Player.t)
    (w : list Player.t) :
  (∀ p, p ∈ w → pm !! Player.id p = None) →
  pm !! Player.id player = None →
  ∀ p, p ∈ filter (λ p, Player.id p ≠ Player.id player) w ++ [player] →
       pm !! Player.id p = None.
Proof.
  intros Hw Hp p [Hin| ->%list_elem_of_singleton]%elem_of_app; [|done].
  apply list_elem_of_filter in Hin as [_ Hin]. by apply Hw.
Qed.

Lemma queue_inv_init : queue_inv init.
Proof.
  split; simpl.
  - apply NoDup_nil_2.
  - intros p Hp. by apply elem_of_nil in Hp.
  - intros mid m Hm. by rewrite lookup_empty in Hm.
Qed.

Lemma queue_inv_enqueue player uuid shuffled st :
  queue_inv st → queue_inv (state_of (addPlayerToQueue player uuid shuffled st)).
Proof.
  intros [Hnd Hun Hdist]. unfold addPlayerToQueue.
  destruct (bool_decide _) eqn:Hmapped; [by split|].
  apply bool_decide_eq_false in Hmapped.
  assert (Hnone : playerMatches st !! Player.id player = None).
  { destruct (playerMatches st !! Player.id player) eqn:E; [|done].
    exfalso. apply Hmapped. eauto. }
  pose proof (inserted_nodup player _ Hnd) as Hnd'.
  pose proof (inserted_unmapped _ player _ Hun Hnone) as Hun'.
  destruct (filter _ (waitingPlayers st) ++ [player]) as [|p1 [|p2 rest]] eqn:Hw;
    simpl.
  - by split.
  - by split.
  - 
    simpl in Hnd'. apply NoDup_cons in Hnd' as [Hp1 Hnd'].
    apply NoDup_cons in Hnd' as [Hp2 Hnd'].
    split; simpl.
    + done.
    + intros p Hp.
      assert (Player.id p ∈ Player.id <$> rest) by (by apply list_elem_of_fmap_2).
      rewrite !lookup_insert_ne.
      * apply Hun'. by do 2 right.
      * intros E. apply Hp1. rewrite E. by right.
      * intros E. apply Hp2. by rewrite E.
    + intros mid m. destruct (decide (uuid = mid)) as [->|Hne].
      * rewrite lookup_insert_eq. intros [= <-]. simpl.
        intros E. apply Hp1. rewrite E. by left.
      * rewrite lookup_insert_ne by done. apply Hdist.
Qed.

Lemma queue_inv_startMatch mid now st :
  queue_inv st → queue_inv (fst (startMatch mid now st)).
Proof.
  intros [Hnd Hun Hdist]. unfold startMatch.
  destruct (matches st !! mid) as [m|] eqn:Hm; [|by split].
  split; simpl; [done|done|].
  intros k m'. destruct (decide (mid = k)) as [->|Hne].
  - rewrite lookup_insert_eq. intros [= <-]. simpl. by eapply Hdist.
  - rewrite lookup_insert_ne by done. apply Hdist.
Qed.

Lemma queue_inv_submitGuess mid pid g now st :
  queue_inv st → queue_inv (state_of (submitGuess mid pid g now st)).
Proof.
  intros Hinv.
  destruct (submitGuess_shape mid pid g now st)
    as [->|(m & m' & Hm & -> & [Hp1 Hp2] & _)]; [done|].
  destruct Hinv as [Hnd Hun Hdist].
  split; simpl; [done|done|].
  intros k m0. destruct (decide (mid = k)) as [->|Hne].
  - rewrite lookup_insert_eq. intros [= <-]. rewrite Hp1, Hp2. by eapply Hdist.
  - rewrite lookup_insert_ne by done. apply Hdist.
Qed.

Lemma queue_inv_removePlayer pid st :
  queue_inv st → queue_inv (removePlayer pid st).
Proof.
  intros [Hnd Hun Hdist].
  assert (Hnd' : NoDup (Player.id <$> filter (λ p, Player.id p ≠ pid) (waitingPlayers st))).
  { eapply sublist_NoDup; [exact Hnd|]. apply fmap_sublist, sublist_filter. }
  assert (Hun' : ∀ p, p ∈ filter (λ p, Player.id p ≠ pid) (waitingPlayers st) →
                      playerMatches st !! Player.id p = None).
  { intros p [_ Hp]%list_elem_of_filter. by apply Hun. }
  unfold removePlayer.
  destruct (playerMatches st !! pid) as [mid|] eqn:Hpm; [|by split].
  destruct (bool_decide (mid = "")); [by split|].
  split; simpl.
  - done.
  - intros p Hp. destruct (decide (pid = Player.id p)) as [->|Hne].
    + by rewrite lookup_delete_eq.
    + rewrite lookup_delete_ne by done. by apply Hun'.
  - intros k m'. destruct (matches st !! mid) as [m|] eqn:Hm; [|apply Hdist].
    destruct (bool_decide _); [|apply Hdist].
    destruct (decide (mid = k)) as [->|Hne].
    + rewrite lookup_insert_eq. intros [= <-]. simpl. by eapply Hdist.
    + rewrite lookup_insert_ne by done. apply Hdist.
Qed.

(** The sweep only removes entries of [playerMatches]. *)
Lemma cleanup_only_unmaps now st p :
  playerMatches (cleanupFinishedMatches now st) !! p = None
  ∨ playerMatches (cleanupFinishedMatches now st) !! p = playerMatches st !! p.
Proof.
  unfold cleanupFinishedMatches. generalize (matches st). intros ms.
  apply (map_fold_weak_ind
    (λ r (_ : gmap string Match.t),
       playerMatches r !! p = None ∨ playerMatches r !! p = playerMatches st !! p)).
  - by right.
  - intros i x _ r _ IH. unfold cleanup_entry.
    destruct (expired now x); [|done]. simpl.
    destruct (decide (p = Match.player2Id x)) as [->|?];
      [left; apply lookup_delete_eq|rewrite lookup_delete_ne by done].
    destruct (decide (p = Match.player1Id x)) as [->|?];
      [left; apply lookup_delete_eq|by rewrite lookup_delete_ne by done].
Qed.

Lemma queue_inv_cleanup now st :
  queue_inv st → queue_inv (cleanupFinishedMatches now st).
Proof.
  intros [Hnd Hun Hdist].
  destruct (cleanup_spec now st) as (Hw & Hm & Hp1 & Hp2).
  split.
  - by rewrite Hw.
  - rewrite Hw. intros p Hp.
    destruct (cleanup_only_unmaps now st (Player.id p)) as [E|E]; [done|].
    rewrite E. by apply Hun.
  - intros k m. rewrite Hm.
    destruct (matches st !! k) as [m0|] eqn:Hk; simpl; [|done].
    destruct (expired now m0); [done|]. intros [= <-]. by eapply Hdist.
Qed.


Lemma queue_inv_run o st : queue_inv st → queue_inv (run o st).
Proof.
  destruct o; simpl;
    auto using queue_inv_enqueue, queue_inv_startMatch, queue_inv_submitGuess,
               queue_inv_removePlayer, queue_inv_cleanup.
Qed.

Lemma reachable_queue_inv st : reachable st → queue_inv st.
Proof.
  induction 1 as [|o st _ IH]; [apply queue_inv_init | by apply queue_inv_run].
Qed.

Lemma reachable_run_all os st : reachable st → reachable (run_all os st).
Proof.
  revert st. induction os as [|o os IH]; intros st H; simpl; [done|].
  apply IH. by constructor.
Qed.

(** C5: in every state the manager can reach, no match of the table has the
    same player twice; and an insertion that leaves two or more entries in
    the waiting list dequeues the two entries at its front (the two that
    have waited longest), which have distinct identifiers, and builds the new
    match from them; the rest of the list stays queued. *)
Theorem enqueue_pairs_front_two st :
  reachable st →
  (∀ mid m, matches st !! mid = Some m →
            Match.player1Id m ≠ Match.player2Id m)
  ∧ ∀ player uuid shuffled,
      playerMatches st !! Player.id player = None →
      (2 ≤ length (filter (λ p, Player.id p ≠ Player.id player) (waitingPlayers st)
                     ++ [player]))%nat →
      ∃ p1 p2 rest st' m,
        filter (λ p, Player.id p ≠ Player.id player) (waitingPlayers st) ++ [player]
        = p1 :: p2 :: rest
        ∧ Player.id p1 ≠ Player.id p2
        ∧ addPlayerToQueue player uuid shuffled st = Normal st' (Some uuid)
        ∧ waitingPlayers st' = rest
        ∧ matches st' !! uuid = Some m
        ∧ Match.player1Id m = Player.id p1
        ∧ Match.player2Id m = Player.id p2
        ∧ Match.state m = waiting.
Proof.
  intros Hr. pose proof (reachable_queue_inv st Hr) as [Hnd Hun Hdist].
  split; [exact Hdist|].
  intros player uuid shuffled Hnone Hlen.
  pose proof (inserted_nodup player _ Hnd) as Hnd'.
  unfold addPlayerToQueue.
  rewrite bool_decide_eq_false_2 by (rewrite Hnone; by intros [? ?]).
  apply Nat.leb_le in Hlen. rewrite Hlen.
  destruct (filter _ (waitingPlayers st) ++ [player]) as [|p1 [|p2 rest]] eqn:Hw;
    [done|done|].
  simpl. eexists p1, p2, rest, _, _.
  split; [done|]. split.
  { simpl in Hnd'. apply NoDup_cons in Hnd' as [Hp1 _].
    intros E. apply Hp1. rewrite E. by left. }
  split; [done|]. split; [done|].
  split; [simpl; by rewrite lookup_insert_eq|]. done.
Qed.

(** C7 (amended): enqueueing returns no match and leaves the manager as it
    was exactly when the player identifier has an entry in the player→match
    map (whatever the state of the mapped match is), or the player is already
    the only entry of the waiting list. *)
Theorem enqueue_noop_iff player uuid shuffled st :
  addPlayerToQueue player uuid shuffled st = Normal st None
  ↔ is_Some (playerMatches st !! Player.id player)
    ∨ waitingPlayers st = [player].
Proof.
  unfold addPlayerToQueue.
  destruct (decide (is_Some (playerMatches st !! Player.id player))) as [Hs|Hs].
  { rewrite bool_decide_eq_true_2 by done. split; [by left|done]. }
  rewrite bool_decide_eq_false_2 by done.
  destruct (filter _ (waitingPlayers st) ++ [player]) as [|p1 [|p2 rest]] eqn:Hw;
    simpl.
  - by destruct (filter _ (waitingPlayers st)).
  - assert (p1 = player) as ->.
    { destruct (filter _ (waitingPlayers st)) as [|? [|? ?]]; by simplify_eq/=. }
    split.
    + intros [= E]. right. by rewrite <- E.
    + intros [?|E]; [done|]. destruct st as [ms w pm]. simpl in *. by subst.
  - split; [done|]. intros [?|E]; [done|]. exfalso.
    rewrite E in Hw. rewrite filter_cons_False in Hw by (by intros ?).
    done.
Qed.

(** C8 (amended): [createMatch] takes the two entries at the front of the
    waiting list, puts the new match in the table and maps both players to
    it; it checks nothing and does not fail on account of a mapping that a
    player already has (the mapping is overwritten).  That the two players
    have no mapping is ensured by [addPlayerToQueue] alone: it holds whenever
    [createMatch] is called from it in a reachable state. *)
Theorem createMatch_registers_unchecked uuid shuffled st p1 p2 rest :
  waitingPlayers st = p1 :: p2 :: rest →
  (∃ st' m,
      createMatch uuid shuffled st = Normal st' uuid
      ∧ matches st' !! uuid = Some m
      ∧ Match.player1Id m = Player.id p1
      ∧ Match.player2Id m = Player.id p2
      ∧ playerMatches st' !! Player.id p1 = Some uuid
      ∧ playerMatches st' !! Player.id p2 = Some uuid
      ∧ waitingPlayers st' = rest)
  ∧ (∀ st0 player,
       reachable st0 →
       playerMatches st0 !! Player.id player = None →
       st = inserted player st0 →
       playerMatches st !! Player.id p1 = None
       ∧ playerMatches st !! Player.id p2 = None).
Proof.
  intros Hw. split.
  - unfold createMatch. rewrite Hw. eexists _, _. split; [done|]. simpl.
    rewrite !lookup_insert_eq. repeat (split; [done|]).
    split; [|done].
    destruct (decide (Player.id p2 = Player.id p1)) as [->|Hne].
    + by rewrite lookup_insert_eq.
    + by rewrite lookup_insert_ne, lookup_insert_eq.
  - intros st0 player [_ Hun _]%reachable_queue_inv Hnone ->.
    pose proof (inserted_unmapped _ player _ Hun Hnone) as Hun'.
    simpl in Hw. rewrite Hw in Hun'. simpl.
    split; apply Hun'; [by left|by right; left].
Qed.

(** [addPlayerToQueue] calls [createMatch] on the manager as the insertion
    left it. *)
Lemma addPlayerToQueue_calls_createMatch player uuid shuffled st :
  playerMatches st !! Player.id player = None →
  (2 ≤ length (waitingPlayers (inserted player st)))%nat →
  addPlayerToQueue player uuid shuffled st
  = match createMatch uuid shuffled (inserted player st) with
    | Normal st2 mid => Normal st2 (Some mid)
    | TypeError st2 => TypeError st2
    end.
Proof.
  intros Hnone Hlen. unfold addPlayerToQueue.
  rewrite bool_decide_eq_false_2 by (rewrite Hnone; by intros [? ?]).
  apply Nat.leb_le in Hlen. unfold inserted in Hlen at 1.
  change (waitingPlayers (GameManager.mk ?a ?b ?c)) with b in Hlen.
  by rewrite Hlen.
Qed.

End Queue.

(** ** Retention *)

Section Retention.

Lemma expired_true now m :
  expired now m = true
  ↔ Match.state m = finished
    ∧ default 0 (Match.roundStartTime m) < now - retention.
Proof.
  unfold expired, oneHourAgo, retention.
  rewrite andb_true_iff, bool_decide_eq_true, Z.ltb_lt. done.
Qed.

(** C9 (amended): the sweep deletes every finished match whose recorded
    anchor, taken as 0 when none is recorded, is older than the retention
    window (one hour before [now]), and removes the entries of its two
    players that lead to it; a finished match without anchor (never started,
    or forfeited between two rounds) is thus deleted however recently it
    finished.  Every other match, not finished or with an anchor that is not
    older than the window, stays in the table as it is; no match is added;
    the entry of a player who is in no deleted match stays as it is; the
    waiting list stays as it is. *)
Theorem cleanup_removes_expired_only now st :
  let st' := cleanupFinishedMatches now st in
  (∀ mid m,
      matches st !! mid = Some m →
      Match.state m = finished →
      default 0 (Match.roundStartTime m) < now - retention →
      matches st' !! mid = None
      ∧ ∀ p, p = Match.player1Id m ∨ p = Match.player2Id m →
             playerMatches st !! p = Some mid →
             playerMatches st' !! p = None)
  ∧ (∀ mid m,
      matches st !! mid = Some m →
      Match.state m ≠ finished
      ∨ now - retention ≤ default 0 (Match.roundStartTime m) →
      matches st' !! mid = Some m)
  ∧ (∀ mid, matches st !! mid = None → matches st' !! mid = None)
  ∧ (∀ p,
      (∀ mid m,
          matches st !! mid = Some m →
          Match.state m = finished →
          default 0 (Match.roundStartTime m) < now - retention →
          p ≠ Match.player1Id m ∧ p ≠ Match.player2Id m) →
      playerMatches st' !! p = playerMatches st !! p)
  ∧ waitingPlayers st' = waitingPlayers st.
Proof.
  intros st'. destruct (cleanup_spec now st) as (Hw & Hms & Hp1 & Hp2).
  fold st' in Hw, Hms, Hp1, Hp2.
  split; [|split; [|split; [|split]]].
  - intros mid m Hm Hf Hold.
    assert (He : expired now m = true) by (by apply expired_true).
    split; [by rewrite Hms, Hm; simpl; rewrite He|].
    intros p Hp _. apply Hp1. by exists mid, m.
  - intros mid m Hm Hkeep. rewrite Hms, Hm. simpl.
    destruct (expired now m) eqn:He; [|done].
    apply expired_true in He as [? ?]. destruct Hkeep; [done|lia].
  - intros mid Hm. by rewrite Hms, Hm.
  - intros p Hp. apply Hp2. intros mid m Hm [? ?]%expired_true. by eapply Hp.
  - exact Hw.
Qed.

End Retention.

(** ** The lifecycle of a match *)

Section Lifecycle.

Lemma forward_refl m : forward m m.
Proof. by split. Qed.

Lemma rank_le_finished s : (rank s ≤ rank finished)%nat.
Proof. destruct s; simpl; lia. Qed.

(** The match under [mid] is the one of hypothesis [Hm], untouched. *)
Local Ltac kept Hm := rewrite Hm; intros [= <-]; apply forward_refl.

(** Every operation other than [startMatch] moves a match that it keeps
    forward (the operation not being the creation of a match under the same
    identifier). *)
Lemma run_forward o st mid m m' :
  (∀ k now, o ≠ StartMatch k now) →
  (∀ p sh, o ≠ Enqueue p mid sh) →
  matches st !! mid = Some m →
  matches (run o st) !! mid = Some m' →
  forward m m'.
Proof.
  intros Hns Hfresh Hm.
  destruct o as [p u sh|k now|k pid g now|pid|now]; simpl.
  - assert (u ≠ mid) by (intros ->; by destruct (Hfresh p sh)).
    unfold addPlayerToQueue. destruct (bool_decide _); [simpl; kept Hm|].
    destruct (filter _ (waitingPlayers st) ++ [p]) as [|p1 [|p2 rest]]; simpl;
      try kept Hm.
    rewrite lookup_insert_ne by done. kept Hm.
  - by destruct (Hns k now).
  - destruct (submitGuess_shape k pid g now st)
      as [->|(m0 & m1 & Hm0 & -> & _ & Hf)]; [kept Hm|].
    simpl. destruct (decide (k = mid)) as [->|Hne].
    + rewrite lookup_insert_eq. intros [= <-]. congruence.
    + rewrite lookup_insert_ne by done. kept Hm.
  - unfold removePlayer.
    destruct (playerMatches st !! pid) as [k|]; simpl; [|kept Hm].
    destruct (bool_decide (k = "")); simpl; [kept Hm|].
    destruct (matches st !! k) as [m0|] eqn:Hk; [|kept Hm].
    destruct (bool_decide _); [|kept Hm].
    destruct (decide (k = mid)) as [->|Hne].
    + rewrite lookup_insert_eq. intros [= <-]. simplify_eq.
      split; simpl; [apply rank_le_finished|done].
    + rewrite lookup_insert_ne by done. kept Hm.
  - destruct (cleanup_spec now st) as (_ & Hms & _). rewrite Hms, Hm. simpl.
    destruct (expired now m); [done|]. intros [= <-]. apply forward_refl.
Qed.

(** An identifier that is not in the table is not brought into it, except by
    the creation of a match under it. *)
Lemma run_absent o st mid :
  (∀ p sh, o ≠ Enqueue p mid sh) →
  matches st !! mid = None →
  matches (run o st) !! mid = None.
Proof.
  intros Hfresh Hm.
  destruct o as [p u sh|k now|k pid g now|pid|now]; simpl.
  - assert (u ≠ mid) by (intros ->; by destruct (Hfresh p sh)).
    unfold addPlayerToQueue. destruct (bool_decide _); [done|].
    destruct (filter _ (waitingPlayers st) ++ [p]) as [|p1 [|p2 rest]]; simpl;
      try done.
    by rewrite lookup_insert_ne.
  - unfold startMatch. destruct (matches st !! k) eqn:Hk; simpl; [|done].
    rewrite lookup_insert_ne; [done|]. intros ->. congruence.
  - destruct (submitGuess_shape k pid g now st)
      as [->|(m0 & m1 & Hm0 & -> & _)]; [done|].
    simpl. rewrite lookup_insert_ne; [done|]. intros ->. congruence.
  - unfold removePlayer.
    destruct (playerMatches st !! pid) as [k|]; simpl; [|done].
    destruct (bool_decide (k = "")); simpl; [done|].
    destruct (matches st !! k) as [m0|] eqn:Hk; [|done].
    destruct (bool_decide _); [|done].
    rewrite lookup_insert_ne; [done|]. intros ->. congruence.
  - destruct (cleanup_spec now st) as (_ & Hms & _). by rewrite Hms, Hm.
Qed.

(** The same along any sequence of operations without [startMatch]. *)
Lemma run_all_forward os st mid m m' :
  Forall (λ o, (∀ k now, o ≠ StartMatch k now) ∧ (∀ p sh, o ≠ Enqueue p mid sh)) os →
  matches st !! mid = Some m →
  matches (run_all os st) !! mid = Some m' →
  forward m m'.
Proof.
  intros Hos. revert st m.
  induction Hos as [|o os [Hns Hfresh] Hos IH]; intros st m Hm; simpl.
  { rewrite Hm. intros [= <-]. apply forward_refl. }
  destruct (matches (run o st) !! mid) as [m1|] eqn:Hm1.
  - intros Hm'. pose proof (run_forward o st mid m m1 Hns Hfresh Hm Hm1) as [? ?].
    destruct (IH _ _ Hm1 Hm') as [? ?]. split; lia.
  - intros Hm'. exfalso.
    assert (matches (run_all os (run o st)) !! mid = None); [|congruence].
    clear Hm' IH. revert Hm1. generalize (run o st). 
    induction Hos as [|o' os' [_ Hf'] _ IH']; intros s Hs; simpl; [done|].
    apply IH'. by apply run_absent.
Qed.

(** [startMatch] moves a match that has not been started forward. *)
Lemma startMatch_forward_from_waiting mid now st m m' :
  matches st !! mid = Some m →
  Match.state m = waiting →
  Match.currentRound m = 0%nat →
  matches (fst (startMatch mid now st)) !! mid = Some m' →
  forward m m'.
Proof.
  intros Hm Hw Hc. unfold startMatch. rewrite Hm. simpl.
  rewrite lookup_insert_eq. intros [= <-]. unfold forward. simpl.
  rewrite Hw, Hc. simpl. lia.
Qed.

(** What [startMatch] does: nothing but return an absent value for an unknown
    identifier; otherwise it stores and returns the match with the state
    [playing], the round index 1 and the anchor [now], all else (identifier,
    players, rounds, limit, scores, pending answers) as it was.  It has no
    outcome of failure on a known identifier. *)
Lemma startMatch_spec mid now st :
  match matches st !! mid with
  | None => startMatch mid now st = (st, None)
  | Some m =>
      ∃ m', startMatch mid now st = (put_match mid m' st, Some m')
            ∧ same_setup m m'
            ∧ Match.scores m' = Match.scores m
            ∧ Match.playerAnswers m' = Match.playerAnswers m
            ∧ Match.state m' = playing
            ∧ Match.currentRound m' = 1%nat
            ∧ Match.roundStartTime m' = Some now
  end.
Proof.
  unfold startMatch. destruct (matches st !! mid) as [m|]; [|done].
  eexists. split; [reflexivity|]. by repeat split.
Qed.

End Lifecycle.

(** * The sample session *)

Section Session.

Lemma reachable_one_waiting : reachable one_waiting.
Proof. apply reachable_run, reachable_init. Defined.

Lemma reachable_started : reachable started.
Proof. do 2 apply reachable_run. apply reachable_one_waiting. Defined.

Lemma reachable_forfeited : reachable forfeited.
Proof. apply reachable_run, reachable_started. Defined.

Lemma reachable_round1_done : reachable round1_done.
Proof. do 2 apply reachable_run. apply reachable_started. Defined.

Example session_paired :
  addPlayerToQueue alice "m1" songDatabase init = Normal one_waiting None
  ∧ addPlayerToQueue bob "m1" songDatabase one_waiting = Normal paired (Some "m1")
  ∧ waitingPlayers paired = [].
Proof. vm_compute. done. Qed.

Example session_started : matches started !! "m1" = Some m1_started.
Proof. vm_compute. reflexivity. Qed.

Example session_alice_answered :
  submitGuess "m1" "a" alice_guess 1000000 started = Normal alice_answered None
  ∧ matches alice_answered !! "m1" = Some m1_alice_answered.
Proof. vm_compute. done. Qed.

Example session_round1_done :
  submitGuess "m1" "b" bob_guess 1000000 alice_answered
  = Normal round1_done (Some round1_result).
Proof. vm_compute. reflexivity. Qed.

Example session_forfeited : matches forfeited !! "m1" = Some m1_forfeited.
Proof. vm_compute. reflexivity. Qed.

(** The scenarios of the scoring engine: the limit is 15 seconds; a correct
    answer at 0 seconds earns 250 points, one at 10 seconds 150, one at or
    after the limit 100. *)
Example points_scenarios :
  points 1000000 (Some 1000000) 15 = 250
  ∧ points 1010000 (Some 1000000) 15 = 150
  ∧ points 1015000 (Some 1000000) 15 = 100
  ∧ points 1020000 (Some 1000000) 15 = 100.
Proof. vm_compute. done. Qed.


End Session.

(** ** The lifecycle on the sample session *)

Section LifecycleEvaluated.

(** C1: [startMatch] moves a match back.  The match of the sample session
    that Bob's disconnection finished is playing again after [startMatch],
    and the match whose round 1 was resolved (its round index is 2) is back
    at round 1 after [startMatch]. *)
Example startMatch_moves_match_back :
  (state_in forfeited "m1" = Some finished
   ∧ state_in (run (StartMatch "m1" 2000000) forfeited) "m1" = Some playing)
  ∧ (round_in round1_done "m1" = Some 2%nat
     ∧ round_in (run (StartMatch "m1" 2000000) round1_done) "m1" = Some 1%nat).
Proof. vm_compute. done. Qed.

(** C2: [startMatch] does not fail on a finished match, it returns the match
    and makes it playing again; and on a playing match whose round 1 has
    been resolved (round index 2, of 5 rounds) it does not go on to the next
    round, it returns the match at round 1. *)
Lemma startMatch_restarts_instead_of_failing :
  (state_in forfeited "m1" = Some finished
   ∧ Match.state <$> snd (startMatch "m1" 2000000 forfeited) = Some playing)
  ∧ (state_in round1_done "m1" = Some playing
     ∧ round_in round1_done "m1" = Some 2%nat
     ∧ length <$> (Match.rounds <$> matches round1_done !! "m1") = Some 5%nat
     ∧ Match.currentRound <$> snd (startMatch "m1" 2000000 round1_done)
       = Some 1%nat).
Proof. vm_compute. done. Qed.

End LifecycleEvaluated.

(** ** Resolution on the sample session *)

Section ResolutionEvaluated.

(** C3, as stated, fails: the resolution of round 1 of 5 leaves the match at
    round 2, not at round 1; and the pending-answer map is not empty after
    every round transition: Alice answers round 2 before it is started, and
    [startMatch] then takes the match from round 2 to round 1 with her
    answer still in the map. *)
Lemma finishRound_increments_round :
  (submitGuess "m1" "b" bob_guess 1000000 alice_answered
   = Normal round1_done (Some round1_result)
   ∧ round_in alice_answered "m1" = Some 1%nat
   ∧ round_in round1_done "m1" = Some 2%nat
   ∧ state_in round1_done "m1" = Some playing)
  ∧ (round_in early_answer "m1" = Some 2%nat
     ∧ Match.currentRound <$> snd (startMatch "m1" 2000000 early_answer)
       = Some 1%nat
     ∧ Match.playerAnswers <$> snd (startMatch "m1" 2000000 early_answer)
       = Some {["a" := "Gangnam Style"]}).
Proof. vm_compute. done. Qed.

Lemma submitGuess_resolution_witness :
  ∃ cur m',
    round_at m1_alice_answered = Some cur
    ∧ matches round1_done !! "m1" = Some m'
    ∧ RoundResult.correctAnswer round1_result = Round.correctAnswer cur
    ∧ Match.playerAnswers m' = ∅
    ∧ Match.state m' = playing
    ∧ Match.currentRound m' = 2%nat
    ∧ Match.roundStartTime m' = None.
Proof.
  destruct (submitGuess_resolution "m1" "b" bob_guess 1000000 alice_answered
              round1_done m1_alice_answered round1_result)
    as (cur & m' & Hcur & Hm' & Hr & _ & _ & _ & Hpa & Hadv);
    [vm_compute; reflexivity ..|].
  exists cur, m'. simpl in Hadv. destruct Hadv as (? & ? & ?).
  repeat (split; [done|]).
  split; [by rewrite Hr|done].
Defined.

(** C6, as stated, fails: the answer map of the RoundResult of a forced
    timeout is not empty, it holds the empty answer of the synthetic
    identity. *)
Lemma forced_timeout_records_synthetic_answer :
  submitGuess "m1" "system" timeout_guess 1016000 started
  = Normal (run (SubmitGuess "m1" "system" timeout_guess 1016000) started)
      (Some timeout_result)
  ∧ RoundResult.playerAnswers timeout_result !! "system" = Some ""
  ∧ RoundResult.playerAnswers timeout_result ≠ ∅.
Proof.
  split; [vm_compute; reflexivity|]. split; [vm_compute; reflexivity|].
  simpl. apply insert_non_empty.
Qed.

Lemma forced_timeout_resolution_witness :
  ∃ st' m',
    submitGuess "m1" "system" timeout_guess 1016000 started
    = Normal st' (Some timeout_result)
    ∧ matches st' !! "m1" = Some m'
    ∧ Match.scores m' = Match.scores m1_started
    ∧ Match.playerAnswers m' = ∅
    ∧ Match.state m' = playing
    ∧ Match.currentRound m' = 2%nat.
Proof.
  destruct (forced_timeout_resolution "m1" "system" 1016000 1016000 started
              m1_started dynamite 1000000)
    as (st' & m' & Hs & _ & _ & _ & Hm' & _ & Hsc & Hpa & Hadv);
    [vm_compute; reflexivity | reflexivity | reflexivity | done | done | done
    | done | reflexivity | reflexivity | reflexivity | done | simpl; lia |].
  exists st', m'. simpl in Hadv. destruct Hadv as (? & ? & ?).
  split; [exact Hs|]. done.
Defined.

Lemma resubmission_scores_again_witness :
  ∃ st1 st2 m2,
    submitGuess "m1" "a" alice_guess 1000000 started = Normal st1 None
    ∧ submitGuess "m1" "a" alice_guess 1000000 st1 = Normal st2 None
    ∧ matches st2 !! "m1" = Some m2
    ∧ Match.currentRound m2 = 1%nat
    ∧ Match.scores m2 !! "a" = Some (Num 500).
Proof.
  destruct (resubmission_scores_again "m1" "a" alice_guess alice_guess
              1000000 1000000 started m1_started dynamite 0)
    as (st1 & st2 & m2 & H1 & H2 & Hm2 & _ & Hr & Hs & _);
    [vm_compute; reflexivity | reflexivity | reflexivity | reflexivity
    | reflexivity | reflexivity | reflexivity | reflexivity
    | right; split; [reflexivity | done]
    | vm_compute; reflexivity | vm_compute; reflexivity |].
  exists st1, st2, m2. repeat (split; [done|]). exact Hs.
Defined.

(** C4: a correct answer stamped 10 seconds before the anchor earns 350
    points, beyond the maximum of 250; submitted in the sample session, it
    takes Alice's score from 0 to 350. *)
Example points_before_anchor_exceed_maximum :
  points 990000 (Some 1000000) 15 = 350
  ∧ score_of started "m1" "a" = Some (Num 0)
  ∧ score_of (run (SubmitGuess "m1" "a" (PlayerGuess.mk 1 "Dynamite" 990000) 1000000)
                started) "m1" "a"
    = Some (Num 350).
Proof. vm_compute. done. Qed.

(** The names inherited from [Object.prototype].  With the opponent called
    ["constructor"], whose answer always reads as defined, Alice's answer
    alone resolves the round.  A forced timeout under the name ["__proto__"]
    records nothing.  The right answer of somebody who has no score entry
    leaves [NaN] under an ordinary name, a string under an inherited one, and
    nothing under ["__proto__"]. *)
Example inherited_names :
  (RoundResult.playerAnswers <$>
     default None (value_of (submitGuess "m9" "a" alice_guess 1000000 inherited_started))
   = Some {["a" := "Dynamite"]}
   ∧ round_in (run (SubmitGuess "m9" "a" alice_guess 1000000) inherited_started) "m9"
     = Some 2%nat)
  ∧ RoundResult.playerAnswers <$>
      default None (value_of (submitGuess "m1" "__proto__" timeout_guess 1016000 started))
    = Some ∅
  ∧ score_of (run (SubmitGuess "m1" "zed" alice_guess 1000000) started) "m1" "zed"
    = Some NaN
  ∧ score_of (run (SubmitGuess "m1" "toString" alice_guess 1000000) started)
      "m1" "toString"
    = Some Text
  ∧ score_of (run (SubmitGuess "m1" "__proto__" alice_guess 1000000) started)
      "m1" "__proto__"
    = None.
Proof. vm_compute. done. Qed.

End ResolutionEvaluated.

(** ** The queue on the sample session *)

Section QueueEvaluated.

Lemma enqueue_pairs_front_two_witness :
  ∃ p1 p2 rest st' m,
    filter (λ p, Player.id p ≠ Player.id bob) (waitingPlayers one_waiting) ++ [bob]
    = p1 :: p2 :: rest
    ∧ Player.id p1 ≠ Player.id p2
    ∧ addPlayerToQueue bob "m1" songDatabase one_waiting = Normal st' (Some "m1")
    ∧ waitingPlayers st' = rest
    ∧ matches st' !! "m1" = Some m
    ∧ Match.player1Id m = Player.id p1
    ∧ Match.player2Id m = Player.id p2
    ∧ Match.state m = waiting.
Proof.
  apply (proj2 (enqueue_pairs_front_two one_waiting reachable_one_waiting)
           bob "m1" songDatabase).
  - vm_compute. reflexivity.
  - vm_compute. lia.
Defined.

(** C7, as stated, fails: Alice, whose match is finished (Bob left), is
    mapped to no active match, and yet her request is rejected without any
    change. *)
Lemma enqueue_rejects_player_of_finished_match :
  addPlayerToQueue alice "m2" songDatabase forfeited = Normal forfeited None
  ∧ playerMatches forfeited !! "a" = Some "m1"
  ∧ state_in forfeited "m1" = Some finished
  ∧ ¬ maps_to_active forfeited "a".
Proof.
  split; [vm_compute; reflexivity|]. split; [vm_compute; reflexivity|].
  split; [vm_compute; reflexivity|].
  intros (mid & m & Hp & Hm & Hs).
  vm_compute in Hp. injection Hp as <-.
  rewrite session_forfeited in Hm. injection Hm as <-. by apply Hs.
Qed.

(** C8, as stated, fails: Alice is mapped to a match that is being played,
    and [createMatch] pairs her all the same and overwrites her mapping. *)
Lemma createMatch_overwrites_active_mapping :
  maps_to_active stale_queue "a"
  ∧ value_of (createMatch "m1" songDatabase stale_queue) = Some "m1"
  ∧ playerMatches (state_of (createMatch "m1" songDatabase stale_queue)) !! "a"
    = Some "m1".
Proof.
  split; [|vm_compute; done].
  eexists "m0", _. split; [vm_compute; reflexivity|].
  split; [vm_compute; reflexivity|]. done.
Qed.

Lemma createMatch_registers_unchecked_witness :
  (∃ st' m,
      createMatch "m1" songDatabase (inserted bob one_waiting) = Normal st' "m1"
      ∧ matches st' !! "m1" = Some m
      ∧ Match.player1Id m = "a"
      ∧ Match.player2Id m = "b"
      ∧ playerMatches st' !! "a" = Some "m1"
      ∧ playerMatches st' !! "b" = Some "m1"
      ∧ waitingPlayers st' = [])
  ∧ playerMatches (inserted bob one_waiting) !! "a" = None
  ∧ playerMatches (inserted bob one_waiting) !! "b" = None.
Proof.
  destruct (createMatch_registers_unchecked "m1" songDatabase
              (inserted bob one_waiting) alice bob [])
    as [Hreg Hun]; [vm_compute; reflexivity|].
  split; [exact Hreg|].
  apply (Hun one_waiting bob reachable_one_waiting); [vm_compute|]; reflexivity.
Defined.

End QueueEvaluated.

(** ** Retention on the sample session *)

Section RetentionEvaluated.

(** The sweep one hour (and a millisecond) after the anchor of the finished
    match removes it and the mapping of Alice, which led to it. *)
Lemma cleanup_removes_expired_only_witness :
  matches (cleanupFinishedMatches 4600001 forfeited) !! "m1" = None
  ∧ playerMatches (cleanupFinishedMatches 4600001 forfeited) !! "a" = None.
Proof.
  destruct (cleanup_removes_expired_only 4600001 forfeited) as (Hdel & _).
  destruct (Hdel "m1" m1_forfeited session_forfeited) as [Hm Hp];
    [reflexivity | unfold retention; simpl; lia |].
  split; [exact Hm|]. apply Hp; [by left | by vm_compute].
Defined.

(** C9, as stated, fails.  A match whose round 1 was resolved and which Bob
    then left is finished without anchor: the sweep a second later deletes
    it, young as it is.  And the sweep of ["m1"] does not leave the match
    ["m2"], which is not finished, untouched: Bob's entry, which leads to
    it, is removed. *)
Lemma cleanup_touches_more_than_claimed :
  (state_in between_rounds_forfeit "m1" = Some finished
   ∧ Match.roundStartTime <$> matches between_rounds_forfeit !! "m1" = Some None
   ∧ matches (cleanupFinishedMatches (epoch + 3000) between_rounds_forfeit) !! "m1"
     = None)
  ∧ (state_in rematched "m2" = Some waiting
     ∧ playerMatches rematched !! "b" = Some "m2"
     ∧ playerMatches (cleanupFinishedMatches 4600001 rematched) !! "b" = None).
Proof. vm_compute. done. Qed.

(** The sweep right after the match finished leaves it in the table. *)
Example cleanup_keeps_recent :
  matches (cleanupFinishedMatches 1000001 forfeited) !! "m1" = Some m1_forfeited
  ∧ playerMatches (cleanupFinishedMatches 1000001 forfeited) !! "a" = Some "m1".
Proof. vm_compute. done. Qed.

(** The sweep removes the entries of both players of a deleted match from
    [playerMatches] whatever they lead to: Bob, who left ["m1"] and now is in
    the match ["m2"], loses his mapping to ["m2"] when ["m1"] is swept; the
    match ["m2"] itself stays as it is. *)
Example cleanup_unmaps_player_of_other_match :
  playerMatches rematched !! "b" = Some "m2"
  ∧ state_in rematched "m2" = Some waiting
  ∧ playerMatches (cleanupFinishedMatches 4600001 rematched) !! "b" = None
  ∧ matches (cleanupFinishedMatches 4600001 rematched) !! "m2"
    = matches rematched !! "m2".
Proof. vm_compute. done. Qed.

End RetentionEvaluated.

(** * Further properties of the manager *)

(** ** One operation on one match *)

Section Steps.

(** What one operation does to the entry of the table under [mid]: nothing,
    one step of the match that was there, or the creation of a match. *)
Lemma run_match_cases o st mid m' :
  matches (run o st) !! mid = Some m' →
  matches st !! mid = Some m'
  ∨ (∃ m, matches st !! mid = Some m ∧ match_step m m')
  ∨ (∃ p sh p1 p2 rest,
        o = Enqueue p mid sh
        ∧ playerMatches st !! Player.id p = None
        ∧ waitingPlayers (inserted p st) = p1 :: p2 :: rest
        ∧ m' = new_match mid p1 p2 sh).
Proof.
  destruct o as [p u sh|k now|k pid g now|pid|now]; simpl.
  - unfold addPlayerToQueue.
    destruct (bool_decide _) eqn:Hg; [by left|].
    apply bool_decide_eq_false in Hg.
    assert (Hnone : playerMatches st !! Player.id p = None).
    { destruct (playerMatches st !! Player.id p); [|done]. destruct Hg; eauto. }
    destruct (filter _ (waitingPlayers st) ++ [p]) as [|p1 [|p2 rest]] eqn:Hw;
      simpl; [by left|by left|].
    destruct (decide (u = mid)) as [->|Hne].
    + rewrite lookup_insert_eq. intros [= <-]. right; right.
      by exists p, sh, p1, p2, rest.
    + rewrite lookup_insert_ne by done. by left.
  - unfold startMatch. destruct (matches st !! k) as [m|] eqn:Hk; [|by left].
    simpl. destruct (decide (k = mid)) as [->|Hne].
    + rewrite lookup_insert_eq. intros [= <-]. right; left.
      exists m. split; [done|]. constructor.
    + rewrite lookup_insert_ne by done. by left.
  - unfold submitGuess. destruct (matches st !! k) as [m|] eqn:Hk; [|by left].
    destruct (bool_decide (Match.state m ≠ playing)) eqn:Hs; [by left|].
    apply bool_decide_eq_false in Hs. apply dec_stable in Hs.
    destruct (negb _); [by left|]. simpl.
    destruct (decide (k = mid)) as [->|Hne]; cycle 1.
    { destruct (round_at _); [|simpl; rewrite lookup_insert_ne by done; by left].
      destruct (_ || _); [|simpl; rewrite lookup_insert_ne by done; by left].
      destruct (finishRound _) as [[m3 r]|]; simpl;
        rewrite lookup_insert_ne by done; by left. }
    rewrite round_at_set_playerAnswers.
    destruct (round_at m) as [cur|] eqn:Hcur; cycle 1.
    { simpl. rewrite lookup_insert_eq. intros [= <-]. right; left.
      exists m. split; [done|]. by constructor. }
    set (m2 := if bool_decide _ then _ else _).
    assert (Hm2 : m2 = Match.set_scores (scored pid g cur m)
                         (Match.set_playerAnswers
                            (js_assign pid (PlayerGuess.guess g)
                               (Match.playerAnswers m)) m)).
    { subst m2. unfold scored. destruct (bool_decide _); [done|by destruct m]. }
    rewrite Hm2. clear m2 Hm2.
    destruct (_ || _).
    + rewrite (finishRound_eq _ cur) by done. simpl. rewrite lookup_insert_eq.
      intros [= <-]. right; left. exists m. split; [done|]. by econstructor.
    + simpl. rewrite lookup_insert_eq.
      intros [= <-]. right; left. exists m. split; [done|]. by econstructor.
  - unfold removePlayer.
    destruct (playerMatches st !! pid) as [k|]; simpl; [|by left].
    destruct (bool_decide (k = "")); simpl; [by left|].
    destruct (matches st !! k) as [m0|] eqn:Hk; [|by left].
    destruct (bool_decide _) eqn:Hs; [|by left].
    apply bool_decide_eq_true in Hs.
    destruct (decide (k = mid)) as [->|Hne].
    + rewrite lookup_insert_eq. intros [= <-]. right; left.
      exists m0. split; [done|]. by constructor.
    + rewrite lookup_insert_ne by done. by left.
  - destruct (cleanup_spec now st) as (_ & Hms & _). rewrite Hms.
    destruct (matches st !! mid) as [m|]; simpl; [|done].
    destruct (expired now m); [done|]. by left.
Qed.

End Steps.

(** ** Rounds of a match *)

Section Rounds.

Lemma songDatabase_NoDup : NoDup songDatabase.
Proof. apply (bool_decide_unpack (NoDup songDatabase)). by vm_compute. Qed.

Lemma generateRounds_sublist (count : nat) (shuffled : list Round.t) :
  generateRounds count shuffled `sublist_of` shuffled.
Proof. apply sublist_take. Qed.

Lemma generateRounds_length (count : nat) (shuffled : list Round.t) :
  length (generateRounds count shuffled) = Nat.min count (length shuffled).
Proof. unfold generateRounds. rewrite length_take. lia. Qed.

Lemma shuffled_NoDup (shuffled : list Round.t) :
  shuffled ≡ₚ songDatabase → NoDup shuffled.
Proof. intros ->. apply songDatabase_NoDup. Qed.

(** X1: [generateRounds] draws without repetition from the pool: for a
    shuffle of [songDatabase] it returns [min count 8] rounds, all distinct
    and all of the database, namely the first ones of the shuffle. *)
Theorem generateRounds_draws_distinct (count : nat) (shuffled : list Round.t) :
  shuffled ≡ₚ songDatabase →
  length (generateRounds count shuffled) = Nat.min count 8
  ∧ NoDup (generateRounds count shuffled)
  ∧ (∀ r, r ∈ generateRounds count shuffled → r ∈ songDatabase)
  ∧ generateRounds count shuffled `prefix_of` shuffled.
Proof.
  intros Hp. split; [by rewrite generateRounds_length, Hp|].
  split.
  { eapply sublist_NoDup;
      [by apply shuffled_NoDup | apply generateRounds_sublist]. }
  split.
  { intros r Hr. rewrite <- Hp.
    eapply elem_of_sublist; [exact Hr | apply generateRounds_sublist]. }
  apply prefix_take.
Qed.

Lemma generateRounds_draws_distinct_witness :
  length (generateRounds 5 (reverse songDatabase)) = Nat.min 5 8
  ∧ NoDup (generateRounds 5 (reverse songDatabase))
  ∧ (∀ r, r ∈ generateRounds 5 (reverse songDatabase) → r ∈ songDatabase)
  ∧ generateRounds 5 (reverse songDatabase) `prefix_of` reverse songDatabase.
Proof.
  apply generateRounds_draws_distinct. apply reverse_Permutation.
Defined.

Lemma new_match_inv uuid p1 p2 shuffled :
  shuffled ≡ₚ songDatabase → match_inv uuid (new_match uuid p1 p2 shuffled).
Proof.
  intros Hp. split; simpl; try done; try lia.
  - by rewrite generateRounds_length, Hp.
  - eapply sublist_NoDup;
      [by apply shuffled_NoDup | apply generateRounds_sublist].
  - intros r Hr. rewrite <- Hp.
    eapply elem_of_sublist; [exact Hr | apply generateRounds_sublist].
Qed.

Lemma match_step_inv mid m m' :
  match_inv mid m → match_step m m' → match_inv mid m'.
Proof.
  intros [Hid Hl Hn Hp Hlim Hle Hpl Hw] Hstep.
  destruct Hstep as [now|pid g Hs Hr|pid g cur Hs Hr|pid g cur Hs Hr|Hs].
  - split; simpl; try done; lia.
  - by split.
  - by split.
  - unfold advanced. simpl. rewrite Hl.
    destruct (5 <=? Match.currentRound m)%nat eqn:Hlast.
    + by split.
    + apply Nat.leb_gt in Hlast. split; simpl; try done; try lia.
      rewrite Hs. done.
  - by split.
Qed.

Lemma played_reachable st : played st → reachable st.
Proof. induction 1; by constructor. Qed.

Lemma played_match_inv st mid m :
  played st → matches st !! mid = Some m → match_inv mid m.
Proof.
  intros Hpl. revert mid m.
  induction Hpl as [|o st Hpl IH Hg]; intros mid m Hm.
  { simpl in Hm. by rewrite lookup_empty in Hm. }
  apply run_match_cases in Hm
    as [Hm|[(m0 & Hm0 & Hstep)|(p & sh & p1 & p2 & rest & -> & _ & _ & ->)]].
  - by apply IH.
  - eapply match_step_inv; [by apply IH|done].
  - destruct Hg as (_ & _ & Hp). by apply new_match_inv.
Qed.

End Rounds.

Section Rounds2.

(** X2: in a run with genuine draws every match of the table is stored
    under its own identifier, has five distinct rounds and the limit of 15
    seconds, and its round index stays within [0, 5]: it is 0 while the match
    waits and at least 1 while it is played. *)
Theorem played_round_index_bounds st mid m :
  played st →
  matches st !! mid = Some m →
  Match.id m = mid
  ∧ length (Match.rounds m) = 5%nat
  ∧ NoDup (Match.rounds m)
  ∧ Match.roundTimeLimit m = 15
  ∧ (Match.currentRound m ≤ length (Match.rounds m))%nat
  ∧ (Match.state m = waiting → Match.currentRound m = 0%nat)
  ∧ (Match.state m = playing → (1 ≤ Match.currentRound m)%nat).
Proof.
  intros Hpl Hm. destruct (played_match_inv st mid m Hpl Hm).
  repeat split; try done. lia.
Qed.

Lemma round_at_in_range mid m :
  match_inv mid m → (1 ≤ Match.currentRound m)%nat →
  ∃ cur, round_at m = Some cur ∧ cur ∈ songDatabase.
Proof.
  intros [_ Hl _ Hp _ Hle _ _] Hge. unfold round_at.
  destruct (Match.currentRound m) as [|k] eqn:Hk; [lia|].
  destruct (lookup_lt_is_Some_2 (Match.rounds m) k) as [cur Hcur]; [lia|].
  exists cur. split; [done|]. apply Hp. by eapply list_elem_of_lookup_2.
Qed.

(** X3: in a run with genuine draws [submitGuess] never throws: whatever
    the identifiers, the guess and the time, it returns (a result or none). *)
Theorem submitGuess_never_throws mid pid g now st :
  played st →
  ∃ st' r, submitGuess mid pid g now st = Normal st' r.
Proof.
  intros Hpl.
  destruct (matches st !! mid) as [m|] eqn:Hm; cycle 1.
  { exists st, None. apply submitGuess_ignored. intros m. by rewrite Hm. }
  destruct (decide (Match.state m = playing)) as [Hs|Hs]; cycle 1.
  { exists st, None. apply submitGuess_ignored. intros m0 ?. left. congruence. }
  destruct (decide (PlayerGuess.roundNumber g = Z.of_nat (Match.currentRound m)))
    as [Hr|Hr]; cycle 1.
  { exists st, None. apply submitGuess_ignored. intros m0 ?. right. congruence. }
  pose proof (played_match_inv st mid m Hpl Hm) as Hinv.
  destruct (round_at_in_range mid m Hinv) as (cur & Hcur & _);
    [by apply Hinv|].
  rewrite (submitGuess_accepted _ _ _ _ _ m cur) by done.
  destruct (_ || _); eauto.
Qed.

Lemma played_one_waiting : played one_waiting.
Proof. apply played_run; [apply played_init|]. by repeat split. Qed.

Lemma played_paired : played paired.
Proof.
  apply played_run; [apply played_one_waiting|].
  split; [done|]. split; [by vm_compute|done].
Qed.

Lemma played_started : played started.
Proof. apply played_run; [apply played_paired|done]. Qed.

Lemma played_forfeited : played forfeited.
Proof. apply played_run; [apply played_started|done]. Qed.

Lemma played_round_index_bounds_witness :
  Match.id m1_started = "m1"
  ∧ length (Match.rounds m1_started) = 5%nat
  ∧ NoDup (Match.rounds m1_started)
  ∧ Match.roundTimeLimit m1_started = 15
  ∧ (Match.currentRound m1_started ≤ length (Match.rounds m1_started))%nat
  ∧ (Match.state m1_started = waiting → Match.currentRound m1_started = 0%nat)
  ∧ (Match.state m1_started = playing → (1 ≤ Match.currentRound m1_started)%nat).
Proof.
  apply (played_round_index_bounds started "m1" m1_started played_started
           session_started).
Defined.

Lemma submitGuess_never_throws_witness :
  ∃ st' r, submitGuess "m1" "a" alice_guess 1000000 started = Normal st' r.
Proof. apply submitGuess_never_throws, played_started. Defined.

(** X4: in a run with genuine draws [getCurrentRound] is none exactly for an
    unknown identifier and for a match whose round index is still 0; otherwise
    it is the round of the match at the round index, a round of the
    database.  A match that is being played always has a current round. *)
Theorem getCurrentRound_played st mid :
  played st →
  match matches st !! mid with
  | None => getCurrentRound mid st = None
  | Some m =>
      (Match.currentRound m = 0%nat → getCurrentRound mid st = None)
      ∧ (Match.currentRound m ≠ 0%nat →
         ∃ r, getCurrentRound mid st = Some r
              ∧ Match.rounds m !! (Match.currentRound m - 1)%nat = Some r
              ∧ r ∈ songDatabase)
      ∧ (Match.state m = playing → is_Some (getCurrentRound mid st))
  end.
Proof.
  intros Hpl. unfold getCurrentRound.
  destruct (matches st !! mid) as [m|] eqn:Hm; [|done].
  pose proof (played_match_inv st mid m Hpl Hm) as Hinv.
  assert (Hin : Match.currentRound m ≠ 0%nat →
    ∃ r, (if bool_decide (Match.currentRound m = 0%nat)
             || bool_decide (length (Match.rounds m) < Match.currentRound m)%nat
          then None else round_at m) = Some r
         ∧ Match.rounds m !! (Match.currentRound m - 1)%nat = Some r
         ∧ r ∈ songDatabase).
  { intros Hne.
    destruct (round_at_in_range mid m Hinv) as (cur & Hcur & Hdb); [lia|].
    exists cur. rewrite bool_decide_eq_false_2 by done.
    rewrite bool_decide_eq_false_2
      by (destruct Hinv as [_ Hl _ _ _ Hle _ _]; lia).
    split; [done|]. split; [|done].
    unfold round_at in Hcur. destruct (Match.currentRound m); [done|].
    by replace (S n - 1)%nat with n by lia. }
  split; [|split].
  - intros ->. done.
  - exact Hin.
  - intros Hs. destruct Hin as (r & -> & _); [|by eexists].
    destruct Hinv as [_ _ _ _ _ _ Hp _]. specialize (Hp Hs). lia.
Qed.

Lemma getCurrentRound_played_witness :
  (Match.currentRound m1_started = 0%nat → getCurrentRound "m1" started = None)
  ∧ (Match.currentRound m1_started ≠ 0%nat →
     ∃ r, getCurrentRound "m1" started = Some r
          ∧ Match.rounds m1_started !! (Match.currentRound m1_started - 1)%nat
            = Some r
          ∧ r ∈ songDatabase)
  ∧ (Match.state m1_started = playing → is_Some (getCurrentRound "m1" started)).
Proof.
  pose proof (getCurrentRound_played started "m1" played_started) as H.
  by rewrite session_started in H.
Defined.

End Rounds2.

(** ** The queue between calls *)

Section Queue2.

Lemma filter_length_le {A} (P : A → Prop) `{∀ x, Decision (P x)} (l : list A) :
  (length (filter P l) ≤ length l)%nat.
Proof. apply sublist_length, sublist_filter. Qed.

(** Between two calls the waiting list holds at most one player. *)
Lemma reachable_waiting_short st :
  reachable st → (length (waitingPlayers st) ≤ 1)%nat.
Proof.
  induction 1 as [|o st _ IH]; [simpl; lia|].
  destruct o as [p u sh|k now|k pid g now|pid|now]; simpl.
  - unfold addPlayerToQueue. destruct (bool_decide _); [done|].
    destruct (filter _ (waitingPlayers st) ++ [p]) as [|p1 [|p2 rest]] eqn:Hw;
      simpl; [lia|lia|].
    apply (f_equal length) in Hw. rewrite length_app in Hw. simpl in Hw.
    pose proof (filter_length_le (λ q, Player.id q ≠ Player.id p) (waitingPlayers st)).
    lia.
  - unfold startMatch. by destruct (matches st !! k).
  - destruct (submitGuess_shape k pid g now st) as [->|(? & ? & _ & -> & _)]; done.
  - pose proof (filter_length_le (λ q, Player.id q ≠ pid) (waitingPlayers st)).
    unfold removePlayer. destruct (playerMatches st !! pid); [|simpl; lia].
    destruct (bool_decide _); simpl; lia.
  - destruct (cleanup_spec now st) as (-> & _). done.
Qed.

(** X5: [addPlayerToQueue] never throws, in any state of the manager: it
    returns none or the identifier drawn for the new match, and
    [createMatch] is reached only with two players to take. *)
Theorem addPlayerToQueue_never_throws player uuid shuffled st :
  ∃ st', addPlayerToQueue player uuid shuffled st = Normal st' None
         ∨ addPlayerToQueue player uuid shuffled st = Normal st' (Some uuid).
Proof.
  unfold addPlayerToQueue. destruct (bool_decide _); [by eauto|].
  destruct (filter _ (waitingPlayers st) ++ [player]) as [|p1 [|p2 rest]];
    simpl; eauto.
Qed.

(** X6: in a reachable state a pairing is always of the one player who was
    waiting, as player 1, with the caller, as player 2; the queue is then
    empty, and [getMatch] of the returned identifier and [getPlayerMatch] of
    either player give the new match. *)
Theorem enqueue_pairs_waiter_with_caller player uuid shuffled st st' mid :
  reachable st →
  uuid ≠ "" →
  addPlayerToQueue player uuid shuffled st = Normal st' (Some mid) →
  ∃ other,
    waitingPlayers st = [other]
    ∧ Player.id other ≠ Player.id player
    ∧ mid = uuid
    ∧ waitingPlayers st' = []
    ∧ getMatch mid st' = Some (new_match uuid other player shuffled)
    ∧ getPlayerMatch (Player.id other) st'
      = Some (new_match uuid other player shuffled)
    ∧ getPlayerMatch (Player.id player) st'
      = Some (new_match uuid other player shuffled).
Proof.
  intros Hr Hu. pose proof (reachable_waiting_short st Hr) as Hlen.
  unfold addPlayerToQueue. destruct (bool_decide _); [done|].
  destruct (waitingPlayers st) as [|other [|? ?]] eqn:Hw; [| |simpl in Hlen; lia].
  { rewrite filter_nil. simpl. done. }
  rewrite filter_cons. destruct (decide _) as [Hne|He]; [|by rewrite filter_nil].
  rewrite filter_nil. simpl. intros [= <- <-].
  exists other. repeat (split; [done|]).
  unfold getMatch, getPlayerMatch. simpl. rewrite !lookup_insert_eq.
  split; [done|].
  rewrite lookup_insert_ne, lookup_insert_eq by done.
  rewrite bool_decide_eq_false_2 by done. by rewrite lookup_insert_eq.
Qed.

Lemma enqueue_pairs_waiter_with_caller_witness :
  ∃ other,
    waitingPlayers one_waiting = [other]
    ∧ Player.id other ≠ Player.id bob
    ∧ "m1" = "m1"
    ∧ waitingPlayers paired = []
    ∧ getMatch "m1" paired = Some (new_match "m1" other bob songDatabase)
    ∧ getPlayerMatch (Player.id other) paired
      = Some (new_match "m1" other bob songDatabase)
    ∧ getPlayerMatch (Player.id bob) paired
      = Some (new_match "m1" other bob songDatabase).
Proof.
  apply (enqueue_pairs_waiter_with_caller bob "m1" songDatabase one_waiting
           paired "m1"); [apply reachable_one_waiting | done | by vm_compute].
Defined.

(** X7: the figures of [getStats] in a reachable state: at most one player
    waits, and the matches counted as active are among the matches counted
    in total. *)
Theorem getStats_bounds st :
  reachable st →
  (Stats.waitingPlayers (getStats st) ≤ 1)%nat
  ∧ (Stats.activeMatches (getStats st) ≤ Stats.totalMatches (getStats st))%nat.
Proof.
  intros Hr. simpl. split; [by apply reachable_waiting_short|].
  etrans; [apply filter_length_le|].
  by rewrite length_fmap, length_map_to_list.
Qed.

Lemma getStats_bounds_witness :
  (Stats.waitingPlayers (getStats started) ≤ 1)%nat
  ∧ (Stats.activeMatches (getStats started) ≤ Stats.totalMatches (getStats started))%nat.
Proof. apply getStats_bounds, reachable_started. Defined.

End Queue2.

(** ** Scores and results *)

Section Scores.

Lemma match_step_players m m' : match_step m m' → same_players m m'.
Proof.
  destruct 1; try by split.
  unfold advanced. by destruct (_ <=? _)%nat.
Qed.

Lemma scored_lookup pid g cur m p s :
  Match.scores m !! p = Some (Num s) →
  ∃ s', scored pid g cur m !! p = Some (Num s') ∧ s ≤ s'.
Proof.
  intros Hs. unfold scored. destruct (bool_decide _); [|by exists s].
  destruct (decide (pid = p)) as [->|Hne].
  - rewrite (js_add_assign_lookup_own _ _ (Num s)) by done.
    simpl. eexists. split; [done|].
    pose proof (points_ge_base (PlayerGuess.timestamp g) (Match.roundStartTime m)
                  (Match.roundTimeLimit m)). lia.
  - rewrite js_add_assign_lookup_ne by done. by exists s.
Qed.

(** One step of a match keeps an integer score an integer and does not lower
    it. *)
Lemma match_step_scores m m' p s :
  match_step m m' →
  Match.scores m !! p = Some (Num s) →
  ∃ s', Match.scores m' !! p = Some (Num s') ∧ s ≤ s'.
Proof.
  intros Hstep Hs.
  destruct Hstep as [now|pid g _ _|pid g cur _ _|pid g cur _ _|_];
    try (by exists s).
  - by apply scored_lookup.
  - destruct (scored_lookup pid g cur m p s Hs) as (s' & Hs' & Hle).
    exists s'. split; [|done]. unfold advanced. by destruct (_ <=? _)%nat.
Qed.

(** X8: scores never go down.  Along any sequence of operations that does
    not create a match under the same identifier, an integer score of a
    match that is kept stays an integer and does not decrease. *)
Theorem scores_never_decrease os st mid m m' p s :
  Forall (λ o, ∀ q sh, o ≠ Enqueue q mid sh) os →
  matches st !! mid = Some m →
  matches (run_all os st) !! mid = Some m' →
  Match.scores m !! p = Some (Num s) →
  ∃ s', Match.scores m' !! p = Some (Num s') ∧ s ≤ s'.
Proof.
  intros Hos. revert st m s.
  induction Hos as [|o os Hfresh Hos IH]; intros st m s Hm; simpl.
  { rewrite Hm. intros [= <-] Hs. by exists s. }
  destruct (matches (run o st) !! mid) as [m1|] eqn:Hm1.
  - intros Hm' Hs.
    assert (∃ s1, Match.scores m1 !! p = Some (Num s1) ∧ s ≤ s1) as (s1 & Hs1 & ?).
    { apply run_match_cases in Hm1
        as [Hm1|[(m0 & Hm0 & Hstep)|(q & sh & ? & ? & ? & -> & _)]].
      - simplify_eq. by exists s.
      - simplify_eq. by eapply match_step_scores.
      - by destruct (Hfresh q sh). }
    destruct (IH _ _ _ Hm1 Hm' Hs1) as (s' & Hs' & ?).
    exists s'. split; [done|lia].
  - intros Hm'. exfalso.
    assert (matches (run_all os (run o st)) !! mid = None); [|congruence].
    clear Hm' IH. revert Hm1. generalize (run o st).
    induction Hos as [|o' os' Hf' _ IH']; intros s0 Hs0; simpl; [done|].
    apply IH'. by apply run_absent.
Qed.

Lemma scores_never_decrease_witness :
  ∃ s', Match.scores m1_alice_answered !! "a" = Some (Num s') ∧ 0 ≤ s'.
Proof.
  apply (scores_never_decrease [SubmitGuess "m1" "a" alice_guess 1000000]
           started "m1" m1_started m1_alice_answered "a" 0).
  - by repeat constructor.
  - by vm_compute.
  - by vm_compute.
  - reflexivity.
Defined.

(** In a reachable state both players of a match have an integer score. *)
Lemma reachable_scores_num st mid m :
  reachable st →
  matches st !! mid = Some m →
  ∃ s1 s2, Match.scores m !! Match.player1Id m = Some (Num s1)
           ∧ Match.scores m !! Match.player2Id m = Some (Num s2).
Proof.
  intros Hr. revert mid m. induction Hr as [|o st _ IH]; intros mid m Hm.
  { simpl in Hm. by rewrite lookup_empty in Hm. }
  apply run_match_cases in Hm
    as [Hm|[(m0 & Hm0 & Hstep)|(q & sh & p1 & p2 & rest & -> & _ & _ & ->)]].
  - by eapply IH.
  - destruct (IH _ _ Hm0) as (s1 & s2 & H1 & H2).
    destruct (match_step_players _ _ Hstep) as [-> ->].
    destruct (match_step_scores _ _ _ _ Hstep H1) as (s1' & ? & _).
    destruct (match_step_scores _ _ _ _ Hstep H2) as (s2' & ? & _).
    by exists s1', s2'.
  - exists 0, 0. simpl. rewrite lookup_insert_eq. split; [|done].
    destruct (decide (Player.id p2 = Player.id p1)) as [->|Hne].
    + by rewrite lookup_insert_eq.
    + by rewrite lookup_insert_ne, lookup_singleton_eq.
Qed.

(** X9: [getGameResult] is none for an unknown identifier and for a match
    that is not finished; for a finished match of a reachable state both
    players have an integer score, the final scores are the scores of the
    match, and the winner is the player with the strictly greater score, the
    marker ["tie"] when the scores are equal. *)
Theorem getGameResult_winner st mid :
  reachable st →
  match matches st !! mid with
  | None => getGameResult mid st = None
  | Some m =>
      (Match.state m ≠ finished → getGameResult mid st = None)
      ∧ (Match.state m = finished →
         ∃ s1 s2,
           Match.scores m !! Match.player1Id m = Some (Num s1)
           ∧ Match.scores m !! Match.player2Id m = Some (Num s2)
           ∧ getGameResult mid st
             = Some (GameResult.mk (Match.scores m)
                       (if s2 <? s1 then Match.player1Id m
                        else if s1 <? s2 then Match.player2Id m
                        else "tie")
                       mid))
  end.
Proof.
  intros Hr. unfold getGameResult.
  destruct (matches st !! mid) as [m|] eqn:Hm; [|done].
  split.
  - intros Hs. by rewrite bool_decide_eq_true_2.
  - intros Hs. rewrite bool_decide_eq_false_2 by (by intros ?).
    destruct (reachable_scores_num st mid m Hr Hm) as (s1 & s2 & H1 & H2).
    exists s1, s2. by rewrite H1, H2.
Qed.

Lemma getGameResult_winner_witness :
  (Match.state m1_forfeited ≠ finished → getGameResult "m1" forfeited = None)
  ∧ (Match.state m1_forfeited = finished →
     ∃ s1 s2,
       Match.scores m1_forfeited !! Match.player1Id m1_forfeited = Some (Num s1)
       ∧ Match.scores m1_forfeited !! Match.player2Id m1_forfeited = Some (Num s2)
       ∧ getGameResult "m1" forfeited
         = Some (GameResult.mk (Match.scores m1_forfeited)
                   (if s2 <? s1 then Match.player1Id m1_forfeited
                    else if s1 <? s2 then Match.player2Id m1_forfeited
                    else "tie")
                   "m1")).
Proof.
  pose proof (getGameResult_winner forfeited "m1" reachable_forfeited) as H.
  by rewrite session_forfeited in H.
Defined.

End Scores.

(** ** Forfeit, sweep and mappings *)

Section Forfeit.

(** X10: a player who leaves a match that is not finished forfeits it: the
    match is finished at once with every other field frozen, only the
    leaver's mapping is removed (the opponent's stays), the leaver is not in
    the waiting list, and [getGameResult] of the match resolves with the
    scores as they stood. *)
Theorem removePlayer_forfeits pid mid m st :
  playerMatches st !! pid = Some mid →
  mid ≠ "" →
  matches st !! mid = Some m →
  Match.state m ≠ finished →
  matches (removePlayer pid st) !! mid = Some (Match.set_state finished m)
  ∧ (∀ k, k ≠ mid → matches (removePlayer pid st) !! k = matches st !! k)
  ∧ playerMatches (removePlayer pid st) !! pid = None
  ∧ (∀ q, q ≠ pid →
          playerMatches (removePlayer pid st) !! q = playerMatches st !! q)
  ∧ (∀ p, p ∈ waitingPlayers (removePlayer pid st) → Player.id p ≠ pid)
  ∧ GameResult.finalScores <$> getGameResult mid (removePlayer pid st)
    = Some (Match.scores m).
Proof.
  intros Hpm Hmid Hm Hs. unfold removePlayer, getGameResult.
  rewrite Hpm, Hm, (bool_decide_eq_false_2 _ Hmid), (bool_decide_eq_true_2 _ Hs).
  simpl. rewrite lookup_insert_eq. simpl.
  split; [done|]. split; [intros k ?; by rewrite lookup_insert_ne|].
  split; [apply lookup_delete_eq|].
  split; [intros q ?; by rewrite lookup_delete_ne|].
  split; [|done]. by intros p [? _]%list_elem_of_filter.
Qed.

Lemma removePlayer_forfeits_witness :
  matches forfeited !! "m1" = Some (Match.set_state finished m1_started)
  ∧ (∀ k, k ≠ "m1" → matches forfeited !! k = matches started !! k)
  ∧ playerMatches forfeited !! "b" = None
  ∧ (∀ q, q ≠ "b" → playerMatches forfeited !! q = playerMatches started !! q)
  ∧ (∀ p, p ∈ waitingPlayers forfeited → Player.id p ≠ "b")
  ∧ GameResult.finalScores <$> getGameResult "m1" forfeited
    = Some (Match.scores m1_started).
Proof.
  apply (removePlayer_forfeits "b" "m1" m1_started started);
    [by vm_compute | done | by vm_compute | done].
Defined.

Lemma filter_idemp {A} (P : A → Prop) `{∀ x, Decision (P x)} (l : list A) :
  filter P (filter P l) = filter P l.
Proof.
  induction l as [|x l IH]; [done|].
  rewrite (filter_cons P x l). destruct (decide (P x)); [|done].
  by rewrite filter_cons_True, IH.
Qed.

(** X11: [removePlayer] is idempotent: a second call for the same player
    changes nothing. *)
Theorem removePlayer_idempotent pid st :
  removePlayer pid (removePlayer pid st) = removePlayer pid st.
Proof.
  unfold removePlayer at 2 3.
  destruct (playerMatches st !! pid) as [mid|] eqn:Hpm.
  - destruct (bool_decide (mid = "")) eqn:He.
    + unfold removePlayer. simpl. by rewrite Hpm, He, filter_idemp.
    + unfold removePlayer. simpl. by rewrite lookup_delete_eq, filter_idemp.
  - unfold removePlayer. simpl. by rewrite Hpm, filter_idemp.
Qed.

(** X12: the retention sweep is idempotent at a given time: a second sweep
    finds nothing more to delete. *)
Theorem cleanup_idempotent now st :
  cleanupFinishedMatches now (cleanupFinishedMatches now st)
  = cleanupFinishedMatches now st.
Proof.
  destruct (cleanup_spec now st) as (Hw & Hm & _).
  destruct (cleanup_spec now (cleanupFinishedMatches now st))
    as (Hw' & Hm' & _ & Hp').
  set (st1 := cleanupFinishedMatches now st) in *.
  set (st2 := cleanupFinishedMatches now st1) in *.
  assert (Hkept : ∀ k m, matches st1 !! k = Some m → expired now m = false).
  { intros k m. rewrite Hm. destruct (matches st !! k) as [m0|]; simpl; [|done].
    destruct (expired now m0) eqn:He; [done|]. by intros [= <-]. }
  assert (E1 : matches st2 = matches st1).
  { apply map_eq. intros k. rewrite Hm'.
    destruct (matches st1 !! k) as [m|] eqn:Hk; simpl; [|done].
    by rewrite (Hkept k m). }
  assert (E2 : playerMatches st2 = playerMatches st1).
  { apply map_eq. intros p. apply Hp'. intros k m Hk He.
    rewrite (Hkept k m Hk) in He. done. }
  destruct st2, st1. simpl in *. by subst.
Qed.

End Forfeit.

Section Mappings.

Lemma played_mappings_sound st : played st → mappings_sound st.
Proof.
  induction 1 as [|o st Hpl IH Hg]; intros p mid.
  { simpl. by rewrite lookup_empty. }
  destruct o as [q u sh|k now|k pid g now|pid|now]; simpl.
  - destruct Hg as (Hu & Hfresh & _).
    unfold addPlayerToQueue. destruct (bool_decide _); [apply IH|].
    destruct (filter _ (waitingPlayers st) ++ [q]) as [|p1 [|p2 rest]];
      simpl; [apply IH..|].
    destruct (decide (Player.id p2 = p)) as [<-|Hn2].
    { rewrite lookup_insert_eq. intros [= <-]. split; [done|].
      eexists. rewrite lookup_insert_eq. split; [done|]. by right. }
    rewrite lookup_insert_ne by done.
    destruct (decide (Player.id p1 = p)) as [<-|Hn1].
    { rewrite lookup_insert_eq. intros [= <-]. split; [done|].
      eexists. rewrite lookup_insert_eq. split; [done|]. by left. }
    rewrite lookup_insert_ne by done. intros Hp.
    destruct (IH p mid Hp) as (? & m & Hm & Hin). split; [done|].
    exists m. split; [|done]. rewrite lookup_insert_ne; [done|].
    intros ->. congruence.
  - unfold startMatch. destruct (matches st !! k) as [m0|] eqn:Hk; [|apply IH].
    simpl. intros Hp. destruct (IH p mid Hp) as (? & m & Hm & Hin).
    split; [done|]. destruct (decide (k = mid)) as [->|Hne].
    + eexists. rewrite lookup_insert_eq. split; [done|]. by simplify_eq.
    + exists m. by rewrite lookup_insert_ne.
  - destruct (submitGuess_shape k pid g now st)
      as [->|(m0 & m1 & Hm0 & -> & [Hp1 Hp2] & _)]; [apply IH|].
    simpl. intros Hp. destruct (IH p mid Hp) as (? & m & Hm & Hin).
    split; [done|]. destruct (decide (k = mid)) as [->|Hne].
    + exists m1. rewrite lookup_insert_eq. split; [done|].
      rewrite Hp1, Hp2. by simplify_eq.
    + exists m. by rewrite lookup_insert_ne.
  - unfold removePlayer.
    destruct (playerMatches st !! pid) as [k|] eqn:Hk; [|apply IH].
    destruct (bool_decide (k = "")); [apply IH|]. simpl.
    destruct (decide (pid = p)) as [->|Hne]; [by rewrite lookup_delete_eq|].
    rewrite lookup_delete_ne by done. intros Hp.
    destruct (IH p mid Hp) as (? & m & Hm & Hin). split; [done|].
    destruct (matches st !! k) as [m0|] eqn:Hm0; [|by exists m].
    destruct (bool_decide _); [|by exists m].
    destruct (decide (k = mid)) as [->|Hnk].
    + eexists. rewrite lookup_insert_eq. split; [done|]. by simplify_eq.
    + exists m. by rewrite lookup_insert_ne.
  - destruct (cleanup_spec now st) as (_ & Hms & Hp1 & _).
    intros Hp'.
    destruct (cleanup_only_unmaps now st p) as [E|E]; [congruence|].
    pose proof Hp' as Hp. rewrite E in Hp.
    destruct (IH p mid Hp) as (? & m & Hm & Hin). split; [done|].
    exists m. split; [|done]. rewrite Hms, Hm. simpl.
    destruct (expired now m) eqn:He; [|done].
    (* the match is swept: so is the mapping of [p] *)
    rewrite Hp1 in Hp'; [done|]. by exists mid, m.
Qed.

End Mappings.

(** ** Lookups and late calls *)

Section Lookups.

(** X13: in a run with genuine draws [getPlayerMatch] never gives a player
    a match of somebody else, and no entry of the player→match map dangles:
    a player with an entry gets a match, stored under the mapped identifier,
    of which the player is player 1 or player 2. *)
Theorem getPlayerMatch_sound p st :
  played st →
  match playerMatches st !! p with
  | None => getPlayerMatch p st = None
  | Some mid =>
      ∃ m, getPlayerMatch p st = Some m
           ∧ getMatch mid st = Some m
           ∧ Match.id m = mid
           ∧ (p = Match.player1Id m ∨ p = Match.player2Id m)
  end.
Proof.
  intros Hpl. unfold getPlayerMatch, getMatch.
  destruct (playerMatches st !! p) as [mid|] eqn:Hp; [|done].
  destruct (played_mappings_sound st Hpl p mid Hp) as (Hne & m & Hm & Hin).
  exists m. rewrite bool_decide_eq_false_2 by done.
  repeat (split; [done|]). split; [|done].
  by destruct (played_match_inv st mid m Hpl Hm).
Qed.

Lemma getPlayerMatch_sound_witness :
  ∃ m, getPlayerMatch "a" forfeited = Some m
       ∧ getMatch "m1" forfeited = Some m
       ∧ Match.id m = "m1"
       ∧ ("a" = Match.player1Id m ∨ "a" = Match.player2Id m).
Proof.
  pose proof (getPlayerMatch_sound "a" forfeited played_forfeited) as H.
  assert (E : playerMatches forfeited !! "a" = Some "m1") by (by vm_compute).
  by rewrite E in H.
Defined.

End Lookups.

Section Stale.

(** An operation that is neither [startMatch] on the match under [mid] nor
    the creation of a match under [mid] moves that match forward. *)
Lemma run_forward_at o st mid m m' :
  (∀ now, o ≠ StartMatch mid now) →
  (∀ p sh, o ≠ Enqueue p mid sh) →
  matches st !! mid = Some m →
  matches (run o st) !! mid = Some m' →
  forward m m'.
Proof.
  intros Hns Hfresh Hm.
  destruct o as [p u sh|k now|k pid g now|pid|now];
    try (by apply run_forward).
  assert (k ≠ mid) by (intros ->; by destruct (Hns now)).
  simpl. unfold startMatch. destruct (matches st !! k); simpl.
  - rewrite lookup_insert_ne, Hm by done. intros [= <-]. apply forward_refl.
  - rewrite Hm. intros [= <-]. apply forward_refl.
Qed.

Lemma run_all_forward_at os st mid m m' :
  Forall (λ o, (∀ now, o ≠ StartMatch mid now) ∧ (∀ p sh, o ≠ Enqueue p mid sh)) os →
  matches st !! mid = Some m →
  matches (run_all os st) !! mid = Some m' →
  forward m m'.
Proof.
  intros Hos. revert st m.
  induction Hos as [|o os [Hns Hfresh] Hos IH]; intros st m Hm; simpl.
  { rewrite Hm. intros [= <-]. apply forward_refl. }
  destruct (matches (run o st) !! mid) as [m1|] eqn:Hm1.
  - intros Hm'. pose proof (run_forward_at o st mid m m1 Hns Hfresh Hm Hm1) as [? ?].
    destruct (IH _ _ Hm1 Hm') as [? ?]. split; lia.
  - intros Hm'. exfalso.
    assert (matches (run_all os (run o st)) !! mid = None); [|congruence].
    clear Hm' IH. revert Hm1. generalize (run o st).
    induction Hos as [|o' os' [_ Hf'] _ IH']; intros s0 Hs0; simpl; [done|].
    apply IH'. by apply run_absent.
Qed.

(** X14: once [submitGuess] has resolved a round, a further submission
    carrying the same round number (a late answer, a timer that fires
    afterwards) is ignored, at once and after any operations that neither
    call [startMatch] on that match nor create a match under its identifier:
    it returns none and changes nothing. *)
Theorem submitGuess_after_resolution_ignored
    mid pid g now st st' r os pid' g' now' :
  submitGuess mid pid g now st = Normal st' (Some r) →
  Forall (λ o, (∀ t, o ≠ StartMatch mid t) ∧ (∀ q sh, o ≠ Enqueue q mid sh)) os →
  PlayerGuess.roundNumber g' = PlayerGuess.roundNumber g →
  submitGuess mid pid' g' now' (run_all os st') = Normal (run_all os st') None.
Proof.
  intros Hs Hos Hrn.
  destruct (matches st !! mid) as [m|] eqn:Hm; cycle 1.
  { rewrite submitGuess_ignored in Hs; [done|]. intros m. by rewrite Hm. }
  destruct (decide (Match.state m = playing)) as [Hp|Hp]; cycle 1.
  { rewrite submitGuess_ignored in Hs; [done|]. intros m0 ?. left. congruence. }
  destruct (decide (PlayerGuess.roundNumber g = Z.of_nat (Match.currentRound m)))
    as [Hr|Hr]; cycle 1.
  { rewrite submitGuess_ignored in Hs; [done|]. intros m0 ?. right. congruence. }
  destruct (round_at m) as [cur|] eqn:Hcur; cycle 1.
  { unfold submitGuess in Hs. rewrite Hm, Hp, Hr, Z.eqb_refl in Hs. simpl in Hs.
    by rewrite round_at_set_playerAnswers, Hcur in Hs. }
  rewrite (submitGuess_accepted _ _ _ _ _ m cur) in Hs by done.
  destruct (_ || _); [|done].
  injection Hs as <- _.
  set (m2 := Match.set_scores _ _) in *.
  apply submitGuess_ignored. intros m' Hm'.
  assert (Hadv : matches (put_match mid (advanced m2) st) !! mid
                 = Some (advanced m2)) by (simpl; apply lookup_insert_eq).
  destruct (run_all_forward_at os _ mid _ m' Hos Hadv Hm') as [Hrank Hround].
  revert Hrank Hround. unfold advanced. simpl.
  destruct (_ <=? _)%nat; simpl; intros Hrank Hround.
  - left. destruct (Match.state m'); simpl in Hrank; [lia|lia|done].
  - right. lia.
Qed.

Lemma submitGuess_after_resolution_ignored_witness :
  submitGuess "m1" "system" timeout_guess 1016000
    (run_all [RemovePlayer "c"; Cleanup 1016000] round1_done)
  = Normal (run_all [RemovePlayer "c"; Cleanup 1016000] round1_done) None.
Proof.
  apply (submitGuess_after_resolution_ignored "m1" "b" bob_guess 1000000
           alice_answered round1_done round1_result).
  - by vm_compute.
  - by repeat constructor.
  - reflexivity.
Defined.

(** X15: a finished match is never changed by an operation other than
    [startMatch] (and the creation of a match under its identifier): it is
    kept exactly as it is, or deleted by the sweep when it has expired. *)
Theorem finished_match_frozen o st mid m :
  (∀ k now, o ≠ StartMatch k now) →
  (∀ q sh, o ≠ Enqueue q mid sh) →
  matches st !! mid = Some m →
  Match.state m = finished →
  matches (run o st) !! mid = Some m
  ∨ (∃ now, o = Cleanup now ∧ expired now m = true
            ∧ matches (run o st) !! mid = None).
Proof.
  intros Hns Hfresh Hm Hf.
  destruct o as [p u sh|k now|k pid g now|pid|now]; simpl.
  - left. assert (u ≠ mid) by (intros ->; by destruct (Hfresh p sh)).
    unfold addPlayerToQueue. destruct (bool_decide _); [done|].
    destruct (filter _ (waitingPlayers st) ++ [p]) as [|p1 [|p2 rest]]; simpl;
      try done.
    by rewrite lookup_insert_ne.
  - by destruct (Hns k now).
  - left. destruct (decide (k = mid)) as [->|Hne].
    + rewrite submitGuess_ignored; [done|]. intros m0 ?. left. congruence.
    + destruct (submitGuess_shape k pid g now st)
        as [->|(m0 & m1 & _ & -> & _)]; [done|].
      simpl. by rewrite lookup_insert_ne.
  - left. unfold removePlayer.
    destruct (playerMatches st !! pid) as [k|]; simpl; [|done].
    destruct (bool_decide (k = "")); simpl; [done|].
    destruct (matches st !! k) as [m0|] eqn:Hk; [|done].
    destruct (bool_decide _) eqn:Hs; [|done].
    apply bool_decide_eq_true in Hs.
    rewrite lookup_insert_ne; [done|]. intros ->. congruence.
  - destruct (cleanup_spec now st) as (_ & Hms & _). rewrite Hms, Hm. simpl.
    destruct (expired now m) eqn:He; [right; eauto|by left].
Qed.

Lemma finished_match_frozen_witness :
  matches (run (SubmitGuess "m1" "a" alice_guess 1000000) forfeited) !! "m1"
  = Some m1_forfeited
  ∨ (∃ now, SubmitGuess "m1" "a" alice_guess 1000000 = Cleanup now
            ∧ expired now m1_forfeited = true
            ∧ matches (run (SubmitGuess "m1" "a" alice_guess 1000000) forfeited)
                !! "m1" = None).
Proof.
  apply finished_match_frozen; [done | done | apply session_forfeited | done].
Defined.

End Stale.

Section TimeUp.

(** X16: the time of a round is up exactly when its anchor is set (and not
    0) and at least [roundTimeLimit] seconds, counted in milliseconds, lie
    between the anchor and now; hence a round whose time is up stays so at
    every later time. *)
Theorem isRoundTimeUp_iff now m :
  isRoundTimeUp now m = true
  ↔ ∃ t, Match.roundStartTime m = Some t ∧ t ≠ 0
         ∧ Match.roundTimeLimit m * 1000 ≤ now - t.
Proof.
  unfold isRoundTimeUp. split.
  - destruct (Match.roundStartTime m) as [t|]; [|done].
    destruct (t =? 0) eqn:Ht; [done|]. apply Z.eqb_neq in Ht.
    intros H%Qle_bool_iff. exists t. repeat (split; [done|]).
    revert H. q_arith.
  - intros (t & -> & Ht & Hle). apply Z.eqb_neq in Ht. rewrite Ht.
    apply Qle_bool_iff. q_arith.
Qed.

End TimeUp.

(** ** Queueing again *)

Section Requeue.

Lemma filter_all {A} (P : A → Prop) `{∀ x, Decision (P x)} (l : list A) :
  (∀ x, x ∈ l → P x) → filter P l = l.
Proof.
  induction l as [|x l IH]; intros Hall; [done|].
  rewrite filter_cons_True by (apply Hall; by left).
  f_equal. apply IH. intros y Hy. apply Hall. by right.
Qed.

(** X17: a player who has been removed can queue again at once, whatever
    match the player was in: in a reachable state, after [removePlayer] the
    request of that player is not rejected; the player waits alone, or is
    paired as player 2 with the one player who was waiting. *)
Theorem requeue_after_removal player uuid shuffled st :
  reachable st →
  playerMatches st !! Player.id player ≠ Some "" →
  let st1 := removePlayer (Player.id player) st in
  (waitingPlayers st1 = []
   ∧ addPlayerToQueue player uuid shuffled st1
     = Normal (GameManager.mk (matches st1) [player] (playerMatches st1)) None)
  ∨ (∃ other st2,
       waitingPlayers st1 = [other]
       ∧ Player.id other ≠ Player.id player
       ∧ addPlayerToQueue player uuid shuffled st1 = Normal st2 (Some uuid)
       ∧ waitingPlayers st2 = []
       ∧ matches st2 !! uuid = Some (new_match uuid other player shuffled)).
Proof.
  intros Hr Hne st1.
  assert (Hr1 : reachable st1) by apply (reachable_run (RemovePlayer _) st Hr).
  pose proof (reachable_waiting_short st1 Hr1) as Hlen.
  assert (Hnone : playerMatches st1 !! Player.id player = None).
  { subst st1. unfold removePlayer.
    destruct (playerMatches st !! Player.id player) as [k|] eqn:Hk; [|done].
    rewrite bool_decide_eq_false_2 by congruence. apply lookup_delete_eq. }
  assert (Hw : ∀ p, p ∈ waitingPlayers st1 → Player.id p ≠ Player.id player).
  { intros p. subst st1. unfold removePlayer.
    destruct (playerMatches st !! Player.id player) as [k|];
      [destruct (bool_decide _)|]; simpl;
      by intros [? _]%list_elem_of_filter. }
  unfold addPlayerToQueue.
  rewrite bool_decide_eq_false_2 by (rewrite Hnone; by intros [? ?]).
  rewrite (filter_all _ _ Hw).
  destruct (waitingPlayers st1) as [|other [|? ?]] eqn:E;
    [by left| |simpl in Hlen; lia].
  right. exists other. eexists. split; [done|].
  split; [apply Hw; by left|]. simpl. split; [reflexivity|].
  split; [done|]. simpl. by rewrite lookup_insert_eq.
Qed.

Lemma requeue_after_removal_witness :
  (waitingPlayers (removePlayer "a" forfeited) = []
   ∧ addPlayerToQueue alice "m2" songDatabase (removePlayer "a" forfeited)
     = Normal (GameManager.mk (matches (removePlayer "a" forfeited)) [alice]
                 (playerMatches (removePlayer "a" forfeited))) None)
  ∨ (∃ other st2,
       waitingPlayers (removePlayer "a" forfeited) = [other]
       ∧ Player.id other ≠ Player.id alice
       ∧ addPlayerToQueue alice "m2" songDatabase (removePlayer "a" forfeited)
         = Normal st2 (Some "m2")
       ∧ waitingPlayers st2 = []
       ∧ matches st2 !! "m2" = Some (new_match "m2" other alice songDatabase)).
Proof.
  apply (requeue_after_removal alice "m2" songDatabase forfeited);
    [apply reachable_forfeited | by vm_compute].
Defined.

End Requeue.

(** ** Results on the sample session *)

Section ResultsEvaluated.

(** Bob leaves at the start of round 1: the game is a tie at 0 points; had
    Alice answered first, she would be the winner with her 250 points. *)
Example getGameResult_after_forfeit :
  getGameResult "m1" forfeited
  = Some (GameResult.mk (<["b" := Num 0]> {["a" := Num 0]}) "tie" "m1")
  ∧ GameResult.winner <$> getGameResult "m1" (removePlayer "b" alice_answered)
    = Some "a"
  ∧ getGameResult "m1" started = None.
Proof. vm_compute. done. Qed.

Example getStats_session :
  getStats started = Stats.mk 1 0 1 ∧ getStats one_waiting = Stats.mk 0 1 0.
Proof. vm_compute. done. Qed.

End ResultsEvaluated.
